(** * Position-indexed image cache and auto-width undo/redo synthesis

    A shallow embedding of two pieces of the repository:

    - [ImageCacheMap] and [SheetCellCacheManagerService]
      (packages/docs-mention-ui/src/commands/commands/doc-mention.command.ts,
      second half of the file), the dual-indexed cache of cell images;
    - [AutoWidthController]
      (packages/sheets-ui/src/controllers/auto-width.controller.ts), the
      interceptor that synthesizes the undo/redo mutations for column widths.

    JavaScript [Map]s are finite maps ([gmap]); a [Set<string>] is the list
    of its members in insertion order, which is the order [forEach] visits;
    a [Record<string, T>] is a [gmap string T].  Cell coordinates are integers
    ([Z]), with [-1] the detached sentinel.  A disposable is represented by
    the handle the range-watch registry handed out, and every [dispose()]
    call is recorded in a log. *)

From stdpp Require Import base option list gmap strings fin_maps.
From Stdlib Require Import ZArith Lia.

Open Scope Z_scope.

(** ** The cache entry, [interface IImageCache] *)

Inductive Status := loading | loaded | error.

Module IImageCache.
Record t := mk {
  image : nat;        (* the HTMLImageElement, by reference *)
  disposable : nat;   (* the IDisposable returned by watchRange, by handle *)
  row : Z;
  col : Z;
  key : string;
  status : Status;
}.

(** [item.row = row; item.col = col] *)
Definition move (item : t) (row' col' : Z) : t :=
  mk (image item) (disposable item) row' col' (key item) (status item).

(** [item.status = s] *)
Definition with_status (item : t) (s : Status) : t :=
  mk (image item) (disposable item) (row item) (col item) (key item) s.
End IImageCache.

Abbreviation IImageCache := IImageCache.t.

(** ** [Set<string>], in insertion order *)

Definition Set_add (key : string) (s : list string) : list string :=
  if decide (key ∈ s) then s else s ++ [key].

Definition Set_delete (key : string) (s : list string) : list string :=
  filter (λ k, k ≠ key) s.

(** ** [makeRecord] and [makeImageRecord] *)

Definition makeRecord (imageCache : list IImageCache) : gmap string IImageCache :=
  foldl (λ record item, <[IImageCache.key item := item]> record) ∅ imageCache.

Definition makeImageRecord (imageCache : list IImageCache) : gmap string nat :=
  foldl (λ record item, <[IImageCache.key item := IImageCache.image item]> record)
        ∅ imageCache.

(** The property names a plain object inherits from [Object.prototype].
    Reading [record[key]] on a record built by [makeRecord] finds the entry
    stored under [key] or else, for one of these names, the inherited
    member; that member is a function or an object, so it counts as true in
    a condition. *)
Definition Object_prototype : list string :=
  ["constructor"; "__proto__"; "hasOwnProperty"; "isPrototypeOf";
   "propertyIsEnumerable"; "toLocaleString"; "toString"; "valueOf";
   "__defineGetter__"; "__defineSetter__"; "__lookupGetter__"; "__lookupSetter__"].

(** ** [class ImageCacheMap] *)

Module ImageCacheMap.

Record t := mk {
  _map : gmap string IImageCache;
  _poistionMap : gmap Z (gmap Z (list string));
}.

(** [new ImageCacheMap()] *)
Definition new : t := mk ∅ ∅.

(** [this._poistionMap.get(row)?.get(col)] *)
Definition bucket (m : t) (row col : Z) : option (list string) :=
  _poistionMap m !! row ≫= λ rowMap, rowMap !! col.

(** First half of [update]: when the entry exists, drop the key from the
    bucket found at the coordinates passed in, then store them in the
    entry. *)
Definition update_item (key : string) (row col : Z) (m : t) : t :=
  match _map m !! key with
  | Some item =>
      let pm :=
        match _poistionMap m !! row with
        | Some rowMap =>
            match rowMap !! col with
            | Some colMap =>
                <[row := <[col := Set_delete key colMap]> rowMap]> (_poistionMap m)
            | None => _poistionMap m
            end
        | None => _poistionMap m
        end in
      mk (<[key := IImageCache.move item row col]> (_map m)) pm
  | None => m
  end.

(** Second half of [update]: unless a coordinate is [-1], add the key to
    the bucket of [(row, col)], creating the row map and the bucket when
    they are missing. *)
Definition update_index (key : string) (row col : Z) (m : t) : t :=
  if bool_decide (row = -1) || bool_decide (col = -1) then m
  else
    let rowMap := default ∅ (_poistionMap m !! row) in
    let colMap := default [] (rowMap !! col) in
    mk (_map m)
       (<[row := <[col := Set_add key colMap]> rowMap]> (_poistionMap m)).

Definition update (key : string) (row col : Z) (m : t) : t :=
  update_index key row col (update_item key row col m).

Definition set (key : string) (imageCache : IImageCache) (m : t) : t :=
  update key (IImageCache.row imageCache) (IImageCache.col imageCache)
         (mk (<[key := imageCache]> (_map m)) (_poistionMap m)).

(** The body of the [forEach] in [deleteByPosition], also the tail of
    [delete]: dispose the entry when there is one, then drop the key from
    the primary map.  The first component lists the disposables whose
    [dispose()] ran. *)
Definition evict (acc : list nat * gmap string IImageCache) (key : string)
  : list nat * gmap string IImageCache :=
  match acc.2 !! key with
  | Some item => (acc.1 ++ [IImageCache.disposable item], base.delete key acc.2)
  | None => (acc.1, base.delete key acc.2)
  end.

Definition delete (key : string) (m : t) : list nat * t :=
  let m1 := update key (-1) (-1) m in
  let r := evict ([], _map m1) key in
  (r.1, mk r.2 (_poistionMap m1)).

Definition deleteByPosition (row col : Z) (m : t) : list nat * t :=
  match _poistionMap m !! row with
  | Some rowMap =>
      match rowMap !! col with
      | Some colMap =>
          let r := foldl evict ([], _map m) colMap in
          (r.1, mk r.2 (<[row := base.delete col rowMap]> (_poistionMap m)))
      | None => ([], m)
      end
  | None => ([], m)
  end.

Definition getByKey (key : string) (m : t) : option IImageCache :=
  _map m !! key.

Definition _getByPosition (row col : Z) (m : t) : list IImageCache :=
  match _poistionMap m !! row with
  | Some rowMap => omap (λ key, _map m !! key) (default [] (rowMap !! col))
  | None => []
  end.

Definition getByPosition (row col : Z) (m : t) : gmap string IImageCache :=
  makeRecord (_getByPosition row col m).

Definition getImageCahce (row col : Z) (m : t) : gmap string nat :=
  makeImageRecord (_getByPosition row col m).

End ImageCacheMap.

(** ** Sequences of cache operations

    A cache is only ever reached from [new ImageCacheMap()] through its four
    mutators.  [dispose()] calls are appended to a log, in the order they
    happen. *)

Inductive Op :=
| OpSet (key : string) (imageCache : IImageCache)
| OpUpdate (key : string) (row col : Z)
| OpDelete (key : string)
| OpDeleteByPosition (row col : Z).

Record Sys := mkSys {
  cache : ImageCacheMap.t;
  disposed : list nat;
}.

Definition init : Sys := mkSys ImageCacheMap.new [].

Definition step (s : Sys) (op : Op) : Sys :=
  match op with
  | OpSet key imageCache => mkSys (ImageCacheMap.set key imageCache (cache s)) (disposed s)
  | OpUpdate key row col => mkSys (ImageCacheMap.update key row col (cache s)) (disposed s)
  | OpDelete key =>
      let r := ImageCacheMap.delete key (cache s) in mkSys r.2 (disposed s ++ r.1)
  | OpDeleteByPosition row col =>
      let r := ImageCacheMap.deleteByPosition row col (cache s) in
      mkSys r.2 (disposed s ++ r.1)
  end.

Definition run (ops : list Op) : Sys := foldl step init ops.

(** The only call of [set] in the sources is [map.set(key, item)] with
    [item.key = key] and with [item.disposable] the handle [watchRange] just
    returned.  [keyed] and [created] express the two facts on a sequence. *)

Definition keyed_op (op : Op) : Prop :=
  match op with
  | OpSet key imageCache => IImageCache.key imageCache = key
  | _ => True
  end.

Definition keyed (ops : list Op) : Prop := Forall keyed_op ops.

(** The disposables of the entries created along a sequence. *)
Definition created (ops : list Op) : list nat :=
  omap (λ op, match op with
              | OpSet _ imageCache => Some (IImageCache.disposable imageCache)
              | _ => None
              end) ops.

(** An operation that removes entries: [delete] or [deleteByPosition]. *)
Definition removal (op : Op) : Prop :=
  match op with
  | OpDelete _ | OpDeleteByPosition _ _ => True
  | _ => False
  end.

(** State predicates used as invariants. *)

(** Every entry is filed under its own [key] field. *)
Definition keys_agree (m : ImageCacheMap.t) : Prop :=
  ∀ k item, ImageCacheMap._map m !! k = Some item → IImageCache.key item = k.

(** The entry under [k], when it has a position, is listed in the bucket of
    that position. *)
Definition placed_at (k : string) (m : ImageCacheMap.t) : Prop :=
  ∀ item, ImageCacheMap._map m !! k = Some item →
    IImageCache.row item ≠ -1 → IImageCache.col item ≠ -1 →
    ∃ colMap, ImageCacheMap.bucket m (IImageCache.row item) (IImageCache.col item)
                = Some colMap ∧ k ∈ colMap.

Definition placed (m : ImageCacheMap.t) : Prop := ∀ k, placed_at k m.

(** No disposable was released twice, none of a cached entry was released,
    and no two cached entries share one. *)
Definition disposers_ok (log : list nat) (mp : gmap string IImageCache) : Prop :=
  NoDup log
  ∧ (∀ k item, mp !! k = Some item → IImageCache.disposable item ∉ log)
  ∧ (∀ k1 k2 i1 i2, mp !! k1 = Some i1 → mp !! k2 = Some i2 →
       IImageCache.disposable i1 = IImageCache.disposable i2 → k1 = k2).

(** How often [dispose()] ran on the disposable [d]. *)
Definition dispose_count (d : nat) (log : list nat) : nat :=
  length (filter (λ x, x = d) log).

(** ** Cell contents, as far as [_handleMatrix] reads them *)

Inductive ImageSourceType := URL | UUID | BASE64.

Record IImageData := mkImageData {
  source : string;
  imageSourceType : ImageSourceType;
}.

(** [cell.p]: [drawings] and [drawingsOrder] are optional fields. *)
Record IDocumentData := mkDocumentData {
  drawings : option (gmap string IImageData);
  drawingsOrder : option (list string);
}.

Record ICellData := mkCellData {
  p : option IDocumentData;
}.

(** An [ObjectMatrix], as the sequence of cells [forValue] visits. *)
Definition ObjectMatrix : Type := list (Z * Z * option ICellData).

(** [IRange], the rectangle handed to the watch callback. *)
Record IRange := mkRange {
  startRow : Z;
  endRow : Z;
  startColumn : Z;
  endColumn : Z;
}.

(** ** [class SheetCellCacheManagerService] *)

(** Everything [dispose()] can be called on. *)
Inductive Disposer :=
| WatchRange (handle : nat)      (* returned by [_refRangeService.watchRange] *)
| CommandExecutedListener        (* [_commandService.onCommandExecuted(...)] *)
| UnitAddedSubscription          (* [unitAdded$.subscribe(hanldeUnit)] *)
| SheetChangeSubscriptions.      (* the closure releasing the [activeSheet$] subscriptions *)

Global Instance Disposer_eq_dec : EqDecision Disposer.
Proof. solve_decision. Defined.

(** A request for the bytes of an image: [getImage(drawing.source)] for a
    [UUID] source, the assignment [imageElement.src = drawing.source]
    otherwise. *)
Record Load := mkLoad {
  load_key : string;
  load_image : nat;
  load_drawing : IImageData;
}.

Module SheetCellCacheManagerService.

(** The service together with the collaborators it acts on: the range-watch
    registry (the handles handed out so far), the document (the image
    elements created so far), the image loads requested, and the log of
    [dispose()] calls. *)
Record t := mk {
  _imageMaps : gmap string (gmap string ImageCacheMap.t);
  _initedMap : gmap string (gmap string bool);
  _collection : list Disposer;
  watches : nat;
  images : nat;
  loads : list Load;
  disposals : list Disposer;
}.

(** The constructor: [_initSheetChange] and
    [_initSetRangeValuesCommandListener] hand three disposables to
    [disposeWithMe]; the maps start empty. *)
Definition new : t :=
  mk ∅ ∅ [UnitAddedSubscription; SheetChangeSubscriptions; CommandExecutedListener]
     0%nat 0%nat [] [].

(** Modelled from the spec: the base class [Disposable] of
    [@univerjs/core] is not among the sources.  Teardown of the owning
    scope is its inherited [dispose()], which releases the disposables that
    were handed to [disposeWithMe]; the service neither overrides
    [dispose] nor registers anything else. *)
Definition dispose (s : t) : t :=
  mk (_imageMaps s) (_initedMap s) [] (watches s) (images s) (loads s)
     (disposals s ++ _collection s).

(** [this._imageMaps.get(unitId)?.get(subUnitId)] *)
Definition getMap (unitId subUnitId : string) (s : t) : option ImageCacheMap.t :=
  _imageMaps s !! unitId ≫= λ unitMap, unitMap !! subUnitId.

(** Write the cache of a sub unit back in place. *)
Definition putMap (unitId subUnitId : string) (m : ImageCacheMap.t) (s : t) : t :=
  mk (<[unitId := <[subUnitId := m]> (default ∅ (_imageMaps s !! unitId))]> (_imageMaps s))
     (_initedMap s) (_collection s) (watches s) (images s) (loads s) (disposals s).

Definition _ensureMap (unitId subUnitId : string) (s : t) : ImageCacheMap.t * t :=
  match getMap unitId subUnitId s with
  | Some subUnitMap => (subUnitMap, s)
  | None => (ImageCacheMap.new, putMap unitId subUnitId ImageCacheMap.new s)
  end.

(** The callback registered with [watchRange]: it closes over the cache of
    the sub unit and over [key]. *)
Definition watchCallback (unitId subUnitId key : string) (after : option IRange)
    (s : t) : t :=
  match getMap unitId subUnitId s with
  | Some map =>
      match after with
      | Some after =>
          putMap unitId subUnitId
            (ImageCacheMap.update key (startRow after) (startColumn after) map) s
      | None =>
          let r := ImageCacheMap.delete key map in
          let s' := putMap unitId subUnitId r.2 s in
          mk (_imageMaps s') (_initedMap s') (_collection s') (watches s') (images s')
             (loads s') (disposals s' ++ (WatchRange <$> r.1))
      end
  | None => s
  end.

(** One round of [cell.p.drawingsOrder.forEach(async (key) => ...)], up to
    the first suspension.  [imageCache] is the record read once before the
    loop; [imageCache[key]] is true for an entry of the record and for a
    name inherited from [Object.prototype], and the round then does nothing.
    Reading [cell.p.drawings[key]] fails when there is no
    [drawings] table, which ends the round at once; a missing drawing
    fails later, at [drawing.transform], after the entry was stored and
    before anything is loaded. *)
Definition handleDrawing (unitId subUnitId : string) (row col : Z)
    (doc : IDocumentData) (imageCache : gmap string IImageCache)
    (s : t) (key : string) : t :=
  match imageCache !! key with
  | Some _ => s
  | None =>
      if decide (key ∈ Object_prototype) then s
      else
        match drawings doc with
        | None => s
        | Some table =>
            let disposable := watches s in
            let imageElement := images s in
            let item := IImageCache.mk imageElement disposable row col key loading in
            let map := default ImageCacheMap.new (getMap unitId subUnitId s) in
            let s1 := putMap unitId subUnitId (ImageCacheMap.set key item map) s in
            mk (_imageMaps s1) (_initedMap s1) (_collection s1)
               (S (watches s1)) (S (images s1))
               (match table !! key with
                | Some drawing => loads s1 ++ [mkLoad key imageElement drawing]
                | None => loads s1
                end)
               (disposals s1)
        end
  end.

(** The callback [_handleMatrix] passes to [matrix.forValue]. *)
Definition handleCell (unitId subUnitId : string) (s : t)
    (entry : Z * Z * option ICellData) : t :=
  let '(row, col, cell) := entry in
  let map := default ImageCacheMap.new (getMap unitId subUnitId s) in
  match cell ≫= p with
  | Some doc =>
      match drawingsOrder doc with
      | Some (key :: order) =>
          let imageCache := ImageCacheMap.getByPosition row col map in
          foldl (handleDrawing unitId subUnitId row col doc imageCache) s (key :: order)
      | _ =>
          let r := ImageCacheMap.deleteByPosition row col map in
          let s' := putMap unitId subUnitId r.2 s in
          mk (_imageMaps s') (_initedMap s') (_collection s') (watches s') (images s')
             (loads s') (disposals s' ++ (WatchRange <$> r.1))
      end
  | None =>
      let r := ImageCacheMap.deleteByPosition row col map in
      let s' := putMap unitId subUnitId r.2 s in
      mk (_imageMaps s') (_initedMap s') (_collection s') (watches s') (images s')
         (loads s') (disposals s' ++ (WatchRange <$> r.1))
  end.

Definition _handleMatrix (unitId subUnitId : string) (matrix : ObjectMatrix)
    (s : t) : t :=
  foldl (handleCell unitId subUnitId) (_ensureMap unitId subUnitId s).2 matrix.

(** [imageElement.onload] and [imageElement.onerror]: they assign
    [item.status] on the object created by [handleDrawing], which is the
    cached entry as long as the cache still holds that object under its
    key; the object is recognised by the range watch made for it.
    [onload] also asks the renderer of the unit to repaint, which does not
    touch the cache. *)
Definition settle (st : Status) (unitId subUnitId key : string) (disposable : nat)
    (s : t) : t :=
  match getMap unitId subUnitId s with
  | Some map =>
      match ImageCacheMap._map map !! key with
      | Some item =>
          if decide (IImageCache.disposable item = disposable)
          then putMap unitId subUnitId
                 (ImageCacheMap.mk
                    (<[key := IImageCache.with_status item st]> (ImageCacheMap._map map))
                    (ImageCacheMap._poistionMap map)) s
          else s
      | None => s
      end
  | None => s
  end.

Definition onload := settle loaded.
Definition onerror := settle error.

Definition getImageCache (unitId subUnitId : string) (row col : Z) (s : t)
  : option (gmap string IImageCache) :=
  ImageCacheMap.getByPosition row col <$> getMap unitId subUnitId s.

Definition getImageElementByPosition (unitId subUnitId : string) (row col : Z) (s : t)
  : option (gmap string nat) :=
  ImageCacheMap.getImageCahce row col <$> getMap unitId subUnitId s.

Definition getImageElementByKey (unitId subUnitId key : string) (s : t) : option nat :=
  IImageCache.image <$> (getMap unitId subUnitId s ≫= ImageCacheMap.getByKey key).

End SheetCellCacheManagerService.

(** The loads requested for [key]. *)
Definition loads_of (key : string) (s : SheetCellCacheManagerService.t) : list Load :=
  filter (λ l, load_key l = key) (SheetCellCacheManagerService.loads s).

(** What happens to the service after construction: sheet contents are
    handed to [_handleMatrix] (from [_initSubSheet] and from the listener on
    the set-range-values mutation), range watches fire, images finish
    loading, and the owning scope is torn down. *)
Inductive Event :=
| EvHandleMatrix (unitId subUnitId : string) (matrix : ObjectMatrix)
| EvWatch (unitId subUnitId key : string) (after : option IRange)
| EvSettle (st : Status) (unitId subUnitId key : string) (disposable : nat)
| EvDispose.

Definition fire (s : SheetCellCacheManagerService.t) (ev : Event)
  : SheetCellCacheManagerService.t :=
  match ev with
  | EvHandleMatrix unitId subUnitId matrix =>
      SheetCellCacheManagerService._handleMatrix unitId subUnitId matrix s
  | EvWatch unitId subUnitId key after =>
      SheetCellCacheManagerService.watchCallback unitId subUnitId key after s
  | EvSettle st unitId subUnitId key disposable =>
      SheetCellCacheManagerService.settle st unitId subUnitId key disposable s
  | EvDispose => SheetCellCacheManagerService.dispose s
  end.

Definition play (evs : list Event) : SheetCellCacheManagerService.t :=
  foldl fire SheetCellCacheManagerService.new evs.

(** How often [dispose()] ran on a disposer of the service's world. *)
Definition disposal_count (d : Disposer) (log : list Disposer) : nat :=
  length (filter (λ x, x = d) log).

(** A property of every cache the service holds. *)
Definition caches (P : ImageCacheMap.t → Prop) (s : SheetCellCacheManagerService.t)
  : Prop :=
  ∀ unitId subUnitId map,
    SheetCellCacheManagerService.getMap unitId subUnitId s = Some map → P map.

(** The disposables handed to [disposeWithMe] are the service's own
    subscriptions, never a range watch. *)
Definition own_collection (s : SheetCellCacheManagerService.t) : Prop :=
  ∀ handle, WatchRange handle ∉ SheetCellCacheManagerService._collection s.

(** ** [class AutoWidthController] *)

Definition AFFECT_LAYOUT_STYLES : list string := ["ff"; "fs"; "tr"; "tb"].

(** [IColAutoWidthInfo]: a column and the width measured for it. *)
Record IColAutoWidthInfo := mkColInfo {
  info_col : Z;
  info_width : option Z;
}.

Record ISetWorksheetColAutoWidthMutationParams := mkParams {
  params_subUnitId : string;
  params_unitId : string;
  colsAutoWidthInfo : list IColAutoWidthInfo;
}.

(** A mutation descriptor, [{ id, params }]. *)
Record IMutationInfo := mkMutation {
  mutation_id : string;
  mutation_params : ISetWorksheetColAutoWidthMutationParams;
}.

Record IUndoRedo := mkUndoRedo {
  undos : list IMutationInfo;
  redos : list IMutationInfo;
}.

(** The sheet, as far as column widths go: its id and the width stored for
    each column that has one. *)
Record Worksheet := mkWorksheet {
  sheetId : string;
  columnWidths : gmap Z Z;
}.

Record Workbook := mkWorkbook {
  workbook_unitId : string;
  activeSheet : Worksheet;
}.

(** A JavaScript call either returns or throws; the only exception the
    controller can meet is the [TypeError] of a member access on
    [undefined], behind the non-null assertions. *)
Inductive Result (A : Type) :=
| Ok (value : A)
| TypeError.
Arguments Ok {A} _.
Arguments TypeError {A}.

(** The commands the two interceptors are declared on. *)
Record ColIsAutoWidthCommand := mkColIsAutoWidthCommand {
  cw_id : string;
  cw_ranges : list IRange;        (* [command.params.ranges] *)
}.

Record SetStyleCommandInfo := mkSetStyleCommand {
  ss_id : string;
  ss_style_type : option string;  (* [command.params?.style.type] *)
}.

(** Modelled from the spec: [SetWorksheetColAutoWidthMutationFactory] and the
    handler of [SetWorksheetColAutoWidthMutation] belong to [@univerjs/sheets]
    and are not among the sources.  Following the spec, the redo mutation
    carries the newly computed values and the undo mutation is its symmetric
    counterpart carrying the previously observed ones: the factory lists, for
    each column of the redo parameters, the width the worksheet holds for it
    at that moment, and the mutation stores each listed width (a missing
    width clears the column's). *)
Definition SetWorksheetColAutoWidthMutationFactory
    (params : ISetWorksheetColAutoWidthMutationParams) (worksheet : Worksheet)
  : ISetWorksheetColAutoWidthMutationParams :=
  mkParams (params_subUnitId params) (params_unitId params)
    ((λ info, mkColInfo (info_col info) (columnWidths worksheet !! info_col info))
       <$> colsAutoWidthInfo params).

Definition setColWidth (widths : gmap Z Z) (info : IColAutoWidthInfo) : gmap Z Z :=
  match info_width info with
  | Some w => <[info_col info := w]> widths
  | None => base.delete (info_col info) widths
  end.

Definition SetWorksheetColAutoWidthMutation_handler
    (params : ISetWorksheetColAutoWidthMutationParams) (worksheet : Worksheet)
  : Worksheet :=
  mkWorksheet (sheetId worksheet)
    (foldl setColWidth (columnWidths worksheet) (colsAutoWidthInfo params)).

Module AutoWidthController.
Section Controller.

(** Identifiers declared in [@univerjs/sheets]. *)
Variable SetStyleCommand_id : string.
Variable SetWorksheetColIsAutoWidthCommand_id : string.
Variable SetWorksheetColAutoWidthMutation_id : string.

(** The layout engine: [skeleton.calculateAutoWidthInRange]. *)
Variable Skeleton : Type.
Variable calculateAutoWidthInRange : Skeleton → list IRange → list IColAutoWidthInfo.

(** What the injected services answer:
    - [getCurrentUnitForType(UNIVER_SHEET)],
    - [getRenderById(unitId)], and for a renderer the result of
      [SheetSkeletonManagerService.getCurrent()],
    - [getCurrentSelections()?.map((s) => s.range)]. *)
Record Services := mkServices {
  getCurrentUnitForType : option Workbook;
  getRenderById : string → option (option Skeleton);
  getCurrentSelections : option (list IRange);
}.

Definition noop : IUndoRedo := mkUndoRedo [] [].

Definition getUndoRedoParamsOfColWidth (ranges : list IRange) (env : Services)
  : Result IUndoRedo :=
  match getCurrentUnitForType env with
  | None => TypeError
  | Some workbook =>
      let worksheet := activeSheet workbook in
      let unitId := workbook_unitId workbook in
      let subUnitId := sheetId worksheet in
      match getRenderById env unitId with
      | None => TypeError
      | Some getCurrent =>
          if decide (subUnitId = "") then Ok noop
          else
            match getCurrent with
            | None => Ok noop
            | Some skeleton =>
                let redoParams :=
                  mkParams subUnitId unitId (calculateAutoWidthInRange skeleton ranges) in
                let undoParams :=
                  SetWorksheetColAutoWidthMutationFactory redoParams worksheet in
                Ok (mkUndoRedo
                      [mkMutation SetWorksheetColAutoWidthMutation_id undoParams]
                      [mkMutation SetWorksheetColAutoWidthMutation_id redoParams])
            end
      end
  end.

(** [getMutations] of the interceptor for
    'sheet.command.set-col-is-auto-width'. *)
Definition getMutations_colIsAutoWidth (command : ColIsAutoWidthCommand)
    (env : Services) : Result IUndoRedo :=
  if decide (cw_id command ≠ SetWorksheetColIsAutoWidthCommand_id) then Ok noop
  else getUndoRedoParamsOfColWidth (cw_ranges command) env.

(** [AFFECT_LAYOUT_STYLES.includes(command.params?.style.type)] *)
Definition affects_layout (style_type : option string) : bool :=
  match style_type with
  | Some ty => bool_decide (ty ∈ AFFECT_LAYOUT_STYLES)
  | None => false
  end.

(** [getMutations] of the interceptor for the set style command. *)
Definition getMutations_setStyle (command : SetStyleCommandInfo)
    (env : Services) : Result IUndoRedo :=
  if decide (ss_id command ≠ SetStyleCommand_id) then Ok noop
  else if negb (affects_layout (ss_style_type command)) then Ok noop
  else
    match getCurrentSelections env with
    | None | Some [] => Ok noop
    | Some selections => getUndoRedoParamsOfColWidth selections env
    end.

(** Replaying a list of synthesized mutations on the sheet. *)
Definition applyMutation (worksheet : Worksheet) (mutation : IMutationInfo) : Worksheet :=
  if decide (mutation_id mutation = SetWorksheetColAutoWidthMutation_id)
  then SetWorksheetColAutoWidthMutation_handler (mutation_params mutation) worksheet
  else worksheet.

Definition applyMutations (mutations : list IMutationInfo) (worksheet : Worksheet)
  : Worksheet :=
  foldl applyMutation worksheet mutations.

(** The ranges a command resolves to, as the claim about the output shape
    counts them: the command's own ranges, or the current selections for a
    layout-affecting style change. *)
Definition resolved_setStyle (command : SetStyleCommandInfo) (env : Services)
  : list IRange :=
  if decide (ss_id command ≠ SetStyleCommand_id) then []
  else if negb (affects_layout (ss_style_type command)) then []
  else default [] (getCurrentSelections env).

(** Modelled from the spec: the command bus and the interceptor registry
    ([SheetInterceptorService] and the command service of [@univerjs/sheets])
    are not among the sources.  Following the data flow of the spec, the
    mutation of the triggering command executes first and the interceptors
    are consulted for the executed command afterwards: the workbook they are
    answered with holds the sheet as that mutation left it.  The renderer
    and the selections are the ones in place. *)
Definition commandExecuted (mutation : Worksheet → Worksheet) (env : Services)
  : Services :=
  mkServices
    ((λ workbook,
        mkWorkbook (workbook_unitId workbook) (mutation (activeSheet workbook)))
       <$> getCurrentUnitForType env)
    (getRenderById env)
    (getCurrentSelections env).

End Controller.
End AutoWidthController.

(** ** The callers of [_handleMatrix] *)

(** What [_univerInstanceService.getUnit(unitId)?.getSheetBySheetId(subUnitId)]
    answers, as far as the service reads the sheet: its cell matrix and its
    raw cells. *)
Record SheetContents := mkSheetContents {
  getCellMatrix : ObjectMatrix;
  getCellRaw : Z → Z → option ICellData;
}.

(** [this._initedMap.get(unitId)?.get(subUnitId)], as a condition. *)
Definition inited (unitId subUnitId : string) (s : SheetCellCacheManagerService.t)
  : bool :=
  default false
    (SheetCellCacheManagerService._initedMap s !! unitId ≫= λ unitMap,
       unitMap !! subUnitId).

(** [_initSubSheet], called for the active sheet of every workbook, when a
    workbook is added and whenever its active sheet changes.  [sheet] is
    what the instance service finds for the two ids: nothing when the
    workbook or the sheet is missing. *)
Definition _initSubSheet (sheet : option SheetContents) (unitId subUnitId : string)
    (s : SheetCellCacheManagerService.t) : SheetCellCacheManagerService.t :=
  if inited unitId subUnitId s then s
  else
    match sheet with
    | None => s
    | Some subSheet =>
        let unitMap :=
          default ∅ (SheetCellCacheManagerService._initedMap s !! unitId) in
        SheetCellCacheManagerService._handleMatrix unitId subUnitId
          (getCellMatrix subSheet)
          (SheetCellCacheManagerService.mk
             (SheetCellCacheManagerService._imageMaps s)
             (<[unitId := <[subUnitId := true]> unitMap]>
                (SheetCellCacheManagerService._initedMap s))
             (SheetCellCacheManagerService._collection s)
             (SheetCellCacheManagerService.watches s)
             (SheetCellCacheManagerService.images s)
             (SheetCellCacheManagerService.loads s)
             (SheetCellCacheManagerService.disposals s))
    end.

(** The command the listener is told about, read as the parameters of the
    set-range-values mutation. *)
Record ICommandInfo := mkCommandInfo {
  command_id : string;
  cellValue : option ObjectMatrix;
  command_unitId : string;
  command_subUnitId : string;
}.

(** The listener of [_initSetRangeValuesCommandListener].  It takes the
    positions from [cellValue]; the first [forValue] pass stores the sheet's
    raw cell at each position it visits, and [_handleMatrix] then visits the
    same positions. *)
Definition onCommandExecuted (SetRangeValuesMutation_id : string)
    (sheet : option SheetContents) (commandInfo : ICommandInfo)
    (s : SheetCellCacheManagerService.t) : SheetCellCacheManagerService.t :=
  if decide (command_id commandInfo = SetRangeValuesMutation_id) then
    match cellValue commandInfo with
    | None => s
    | Some cells =>
        if negb (inited (command_unitId commandInfo) (command_subUnitId commandInfo) s)
        then s
        else
          match sheet with
          | None => s
          | Some worksheet =>
              SheetCellCacheManagerService._handleMatrix
                (command_unitId commandInfo) (command_subUnitId commandInfo)
                ((λ entry : Z * Z * option ICellData,
                    (entry.1.1, entry.1.2, getCellRaw worksheet entry.1.1 entry.1.2))
                   <$> cells)
                s
          end
    end
  else s.

(** The ways into the service after its construction: a sheet becomes
    active, a command was executed, a range watch fires, an image finishes
    loading or fails, the service is disposed.  Each call carries what the
    instance service answers at that moment.  Watch and load callbacks are
    admitted at any time and for any key, which covers the callbacks the
    service registered. *)
Inductive Call :=
| CallInitSubSheet (sheet : option SheetContents) (unitId subUnitId : string)
| CallCommandExecuted (sheet : option SheetContents) (commandInfo : ICommandInfo)
| CallWatch (unitId subUnitId key : string) (after : option IRange)
| CallSettle (st : Status) (unitId subUnitId key : string) (disposable : nat)
| CallDispose.

Definition call (SetRangeValuesMutation_id : string)
    (s : SheetCellCacheManagerService.t) (c : Call) : SheetCellCacheManagerService.t :=
  match c with
  | CallInitSubSheet sheet unitId subUnitId => _initSubSheet sheet unitId subUnitId s
  | CallCommandExecuted sheet commandInfo =>
      onCommandExecuted SetRangeValuesMutation_id sheet commandInfo s
  | CallWatch unitId subUnitId key after =>
      SheetCellCacheManagerService.watchCallback unitId subUnitId key after s
  | CallSettle st unitId subUnitId key disposable =>
      SheetCellCacheManagerService.settle st unitId subUnitId key disposable s
  | CallDispose => SheetCellCacheManagerService.dispose s
  end.

Definition drive (SetRangeValuesMutation_id : string) (calls : list Call)
  : SheetCellCacheManagerService.t :=
  foldl (call SetRangeValuesMutation_id) SheetCellCacheManagerService.new calls.

(** The cache of a sub unit, empty when there is none yet. *)
Definition cache_of (unitId subUnitId : string) (s : SheetCellCacheManagerService.t)
  : ImageCacheMap.t :=
  default ImageCacheMap.new (SheetCellCacheManagerService.getMap unitId subUnitId s).

(** The entry the service holds for a key of a sub unit. *)
Definition cached (s : SheetCellCacheManagerService.t) (unitId subUnitId key : string)
  : option IImageCache :=
  ImageCacheMap.getByKey key (cache_of unitId subUnitId s).

(** The range watches released so far, in order. *)
Definition released (s : SheetCellCacheManagerService.t) : list nat :=
  omap (λ d, match d with WatchRange handle => Some handle | _ => None end)
       (SheetCellCacheManagerService.disposals s).

(** Bookkeeping of the range watches: none was released twice; released and
    cached handles were all handed out; a cached entry's watch is not
    released; and no two cached entries share a watch. *)
Definition handles_ok (s : SheetCellCacheManagerService.t) : Prop :=
  NoDup (released s)
  ∧ (∀ handle, handle ∈ released s →
       (handle < SheetCellCacheManagerService.watches s)%nat)
  ∧ (∀ u su k item, cached s u su k = Some item →
       (IImageCache.disposable item < SheetCellCacheManagerService.watches s)%nat
       ∧ IImageCache.disposable item ∉ released s)
  ∧ (∀ u su k item u' su' k' item',
       cached s u su k = Some item → cached s u' su' k' = Some item' →
       IImageCache.disposable item = IImageCache.disposable item' →
       u = u' ∧ su = su' ∧ k = k').

(** Bookkeeping of the image elements: a load is requested on an element
    that was created, and on no element twice. *)
Definition loads_ok (s : SheetCellCacheManagerService.t) : Prop :=
  NoDup (load_image <$> SheetCellCacheManagerService.loads s)
  ∧ (∀ l, l ∈ SheetCellCacheManagerService.loads s →
       (load_image l < SheetCellCacheManagerService.images s)%nat)
  ∧ SheetCellCacheManagerService.images s = SheetCellCacheManagerService.watches s.

(** The sub unit a call works on. *)
Definition target (c : Call) : option (string * string) :=
  match c with
  | CallInitSubSheet _ unitId subUnitId => Some (unitId, subUnitId)
  | CallCommandExecuted _ commandInfo =>
      Some (command_unitId commandInfo, command_subUnitId commandInfo)
  | CallWatch unitId subUnitId _ _ => Some (unitId, subUnitId)
  | CallSettle _ unitId subUnitId _ _ => Some (unitId, subUnitId)
  | CallDispose => None
  end.

(** ** The mention commands, first part of doc-mention.command.ts *)

(** A JavaScript string, as the sequence of its UTF-16 code units; its
    [length] is the length of the sequence. *)
Definition JSString : Type := list N.

Record IDocMention := mkDocMention {
  mention_id : string;
  mention_label : JSString;
}.

Inductive CustomRangeType := MENTION.

Record ICustomRange := mkCustomRange {
  range_startIndex : Z;
  range_endIndex : Z;
  rangeId : string;
  rangeType : CustomRangeType;
  wholeEntity : bool;
  range_mention : IDocMention;     (* [properties: { mention }] *)
}.

Record IDocumentBody := mkDocumentBody {
  dataStream : JSString;
  customRanges : list ICustomRange;
}.

Record ITextRange := mkTextRange {
  startOffset : Z;
  endOffset : Z;
  collapsed : bool;
}.

Record IAddDocMentionCommandParams := mkAddParams {
  add_mention : IDocMention;
  add_unitId : string;
  add_startIndex : Z;
}.

Record IDeleteDocMentionCommandParams := mkDeleteParams {
  delete_unitId : string;
  delete_mentionId : string;
}.

(** What [AddDocMentionCommand] hands to [replaceSelectionFactory]. *)
Record IReplaceSelection := mkReplaceSelection {
  replace_unitId : string;
  replace_body : IDocumentBody;
  replace_selection : ITextRange;
}.

Module DocMention.
Section Commands.

(** [DataStreamTreeTokenType.CUSTOM_RANGE_START] and [CUSTOM_RANGE_END],
    single characters declared in [@univerjs/core]. *)
Variable CUSTOM_RANGE_START : N.
Variable CUSTOM_RANGE_END : N.

(** The mutations the factories of [@univerjs/docs-ui] build, the factories
    themselves (they answer with nothing when there is nothing to do), and
    the command service, which answers whether the mutation went through. *)
Variable Mutation : Type.
Variable replaceSelectionFactory : IReplaceSelection → option Mutation.
Variable deleteCustomRangeFactory : string → string → option Mutation.
Variable executeCommand : Mutation → bool.

(** The template literal: the start token, a space, ['@'], the label, a
    space, the end token. *)
Definition mentionDataStream (mention : IDocMention) : JSString :=
  [CUSTOM_RANGE_START; 32%N; 64%N] ++ mention_label mention ++ [32%N; CUSTOM_RANGE_END].

Definition mentionBody (mention : IDocMention) : IDocumentBody :=
  let dataStream := mentionDataStream mention in
  mkDocumentBody dataStream
    [mkCustomRange 0 (Z.of_nat (length dataStream) - 1) (mention_id mention)
       MENTION true mention].

(** The handler of [AddDocMentionCommand]: its result and the mutations it
    had the command service execute.  [activeRange] is what
    [getActiveTextRange()] answers. *)
Definition AddDocMentionCommand_handler (params : option IAddDocMentionCommandParams)
    (activeRange : option ITextRange) : bool * list Mutation :=
  match params with
  | None => (false, [])
  | Some params =>
      match activeRange with
      | None => (false, [])
      | Some activeRange =>
          let doMutation :=
            replaceSelectionFactory
              (mkReplaceSelection (add_unitId params)
                 (mentionBody (add_mention params))
                 (mkTextRange (add_startIndex params) (endOffset activeRange)
                    (bool_decide (add_startIndex params = endOffset activeRange)))) in
          match doMutation with
          | Some doMutation => (executeCommand doMutation, [doMutation])
          | None => (false, [])
          end
      end
  end.

(** The handler of [DeleteDocMentionCommand]. *)
Definition DeleteDocMentionCommand_handler
    (params : option IDeleteDocMentionCommandParams) : bool * list Mutation :=
  match params with
  | None => (false, [])
  | Some params =>
      match deleteCustomRangeFactory (delete_unitId params) (delete_mentionId params) with
      | None => (false, [])
      | Some doMutation => (executeCommand doMutation, [doMutation])
      end
  end.

End Commands.
End DocMention.

(** A property of every bucket of the position index. *)
Definition buckets (P : Z → Z → list string → Prop) (m : ImageCacheMap.t) : Prop :=
  ∀ row col colMap, ImageCacheMap.bucket m row col = Some colMap → P row col colMap.

(** * Properties of [ImageCacheMap] *)

Section Buckets.
Implicit Types (m : ImageCacheMap.t) (key k : string) (row col r c : Z).

Lemma elem_of_Set_add k key (s : list string) :
  k ∈ Set_add key s ↔ k = key ∨ k ∈ s.
Proof.
  unfold Set_add. destruct (decide (key ∈ s)) as [Hin|Hin].
  - split; [by right | intros [->|]; done].
  - rewrite elem_of_app, list_elem_of_singleton. tauto.
Qed.

Lemma elem_of_Set_delete k key (s : list string) :
  k ∈ Set_delete key s ↔ k ≠ key ∧ k ∈ s.
Proof. unfold Set_delete. by rewrite list_elem_of_filter. Qed.

Lemma map_update_index key row col m :
  ImageCacheMap._map (ImageCacheMap.update_index key row col m) = ImageCacheMap._map m.
Proof. unfold ImageCacheMap.update_index. by destruct (_ || _). Qed.

Lemma map_update_item key row col m :
  ImageCacheMap._map (ImageCacheMap.update_item key row col m)
  = match ImageCacheMap._map m !! key with
    | Some item => <[key := IImageCache.move item row col]> (ImageCacheMap._map m)
    | None => ImageCacheMap._map m
    end.
Proof. unfold ImageCacheMap.update_item. by destruct (_ !! key). Qed.

Lemma map_update key row col m :
  ImageCacheMap._map (ImageCacheMap.update key row col m)
  = match ImageCacheMap._map m !! key with
    | Some item => <[key := IImageCache.move item row col]> (ImageCacheMap._map m)
    | None => ImageCacheMap._map m
    end.
Proof. unfold ImageCacheMap.update. by rewrite map_update_index, map_update_item. Qed.

Lemma bucket_insert (pm : gmap Z (gmap Z (list string))) rowMap (colMap : list string)
    mp row col r c :
  default ∅ (pm !! row) = rowMap →
  ImageCacheMap.bucket
    (ImageCacheMap.mk mp (<[row := <[col := colMap]> rowMap]> pm)) r c
  = if decide (r = row ∧ c = col) then Some colMap
    else ImageCacheMap.bucket (ImageCacheMap.mk mp pm) r c.
Proof.
  intros Hrow. unfold ImageCacheMap.bucket; simpl.
  destruct (decide (r = row)) as [->|Hr].
  - rewrite lookup_insert_eq; simpl.
    destruct (decide (c = col)) as [->|Hc].
    + rewrite lookup_insert_eq. by rewrite decide_True.
    + rewrite lookup_insert_ne by done. rewrite decide_False by tauto.
      subst rowMap. by destruct (pm !! row).
  - rewrite lookup_insert_ne by done. by rewrite decide_False by tauto.
Qed.

Lemma bucket_update_item key row col m r c :
  ImageCacheMap.bucket (ImageCacheMap.update_item key row col m) r c
  = if decide (is_Some (ImageCacheMap._map m !! key) ∧ r = row ∧ c = col)
    then Set_delete key <$> ImageCacheMap.bucket m r c
    else ImageCacheMap.bucket m r c.
Proof.
  unfold ImageCacheMap.update_item.
  destruct (ImageCacheMap._map m !! key) as [item|] eqn:Hk; cycle 1.
  { rewrite decide_False; [done|]. intros [[? ?] _]; done. }
  destruct m as [mp pm]; simpl in *.
  destruct (pm !! row) as [rowMap|] eqn:Hrow.
  - destruct (rowMap !! col) as [colMap|] eqn:Hcol.
    + rewrite (bucket_insert pm rowMap) by (by rewrite Hrow).
      destruct (decide (r = row ∧ c = col)) as [[-> ->]|Hne].
      * rewrite decide_True by eauto.
        unfold ImageCacheMap.bucket; simpl. by rewrite Hrow; simpl; rewrite Hcol.
      * rewrite decide_False by tauto. done.
    + case_decide as H; [|done]. destruct H as (_ & -> & ->).
      unfold ImageCacheMap.bucket; simpl. by rewrite Hrow; simpl; rewrite Hcol.
  - case_decide as H; [|done]. destruct H as (_ & -> & ->).
    unfold ImageCacheMap.bucket; simpl. by rewrite Hrow.
Qed.

Lemma update_index_detached key row col m :
  row = -1 ∨ col = -1 → ImageCacheMap.update_index key row col m = m.
Proof.
  intros H. unfold ImageCacheMap.update_index.
  destruct H as [->| ->]; simpl; [done|].
  by rewrite orb_true_r.
Qed.

Lemma bucket_update_index key row col m r c :
  row ≠ -1 → col ≠ -1 →
  ImageCacheMap.bucket (ImageCacheMap.update_index key row col m) r c
  = if decide (r = row ∧ c = col)
    then Some (Set_add key (default [] (ImageCacheMap.bucket m row col)))
    else ImageCacheMap.bucket m r c.
Proof.
  intros Hrow Hcol. unfold ImageCacheMap.update_index.
  rewrite !bool_decide_eq_false_2 by done; simpl.
  destruct m as [mp pm]; simpl.
  rewrite (bucket_insert pm (default ∅ (pm !! row))) by done.
  case_decide; [|done]. f_equal. f_equal.
  unfold ImageCacheMap.bucket; simpl. by destruct (pm !! row).
Qed.

End Buckets.

Section Evict.
Implicit Types (acc : list nat * gmap string IImageCache) (l : list string).

Lemma evict_map acc key : (ImageCacheMap.evict acc key).2 = base.delete key acc.2.
Proof. unfold ImageCacheMap.evict. by destruct (acc.2 !! key). Qed.

Lemma evict_log acc key :
  (ImageCacheMap.evict acc key).1
  = acc.1 ++ match acc.2 !! key with
             | Some item => [IImageCache.disposable item]
             | None => []
             end.
Proof.
  unfold ImageCacheMap.evict. destruct (acc.2 !! key); simpl; [done|].
  by rewrite app_nil_r.
Qed.

Lemma foldl_evict_lookup l acc k :
  (foldl ImageCacheMap.evict acc l).2 !! k
  = if decide (k ∈ l) then None else acc.2 !! k.
Proof.
  revert acc. induction l as [|key l IH]; intros acc.
  - simpl foldl. case_decide as H; [by apply elem_of_nil in H|done].
  - simpl foldl. rewrite IH, evict_map.
    destruct (decide (k ∈ l)) as [Hin|Hin].
    + rewrite decide_True; [done|]. by right.
    + destruct (decide (k = key)) as [->|Hne].
      * rewrite lookup_delete_eq. rewrite decide_True; [done|]. by left.
      * rewrite lookup_delete_ne by done.
        rewrite decide_False; [done|]. by intros [?|?]%elem_of_cons.
Qed.

Lemma foldl_evict_prefix l acc :
  ∃ ds, (foldl ImageCacheMap.evict acc l).1 = acc.1 ++ ds
        ∧ (foldl ImageCacheMap.evict ([], acc.2) l).1 = ds.
Proof.
  revert acc. induction l as [|key l IH]; intros acc; simpl.
  - exists []. by rewrite app_nil_r.
  - destruct (IH (ImageCacheMap.evict acc key)) as (ds1 & H1 & H1').
    destruct (IH (ImageCacheMap.evict ([], acc.2) key)) as (ds2 & H2 & H2').
    rewrite !evict_map in *. rewrite !evict_log in *. simpl in *.
    exists (match acc.2 !! key with
            | Some item => [IImageCache.disposable item]
            | None => []
            end ++ ds1).
    split; [by rewrite H1, app_assoc|].
    rewrite H2. f_equal. congruence.
Qed.

(** Every entry dropped by the loop had its disposable released by it. *)
Lemma foldl_evict_released l acc k item :
  k ∈ l → acc.2 !! k = Some item →
  IImageCache.disposable item ∈ (foldl ImageCacheMap.evict acc l).1.
Proof.
  revert acc. induction l as [|key l IH]; intros acc Hin Hk; simpl.
  - by apply elem_of_nil in Hin.
  - destruct (decide (k = key)) as [->|Hne].
    + destruct (foldl_evict_prefix l (ImageCacheMap.evict acc key)) as (ds & -> & _).
      rewrite evict_log, Hk. rewrite !elem_of_app, list_elem_of_singleton. tauto.
    + apply IH.
      * rewrite elem_of_cons in Hin. by destruct Hin.
      * by rewrite evict_map, lookup_delete_ne.
Qed.

(** Whatever the loop released was released before or belonged to an
    entry. *)
Lemma foldl_evict_origin l acc d :
  d ∈ (foldl ImageCacheMap.evict acc l).1 →
  d ∈ acc.1 ∨ ∃ k item, acc.2 !! k = Some item ∧ IImageCache.disposable item = d.
Proof.
  revert acc. induction l as [|key l IH]; intros acc Hd; simpl in Hd; [by left|].
  apply IH in Hd as [Hd|(k & item & Hk & Hitem)].
  - rewrite evict_log in Hd. apply elem_of_app in Hd as [Hd|Hd]; [by left|].
    destruct (acc.2 !! key) as [item|] eqn:Hkey.
    + apply list_elem_of_singleton in Hd. right. eauto.
    + by apply elem_of_nil in Hd.
  - rewrite evict_map in Hk. apply lookup_delete_Some in Hk as [_ Hk].
    right. eauto.
Qed.

Lemma evict_disposers_ok log acc key :
  disposers_ok (log ++ acc.1) acc.2 →
  disposers_ok (log ++ (ImageCacheMap.evict acc key).1) (ImageCacheMap.evict acc key).2.
Proof.
  intros (Hnd & Hlive & Hinj). rewrite evict_map, evict_log.
  destruct (acc.2 !! key) as [item|] eqn:Hk.
  - split; [|split].
    + rewrite app_assoc. apply NoDup_app. split; [done|]. split.
      * intros x Hx ->%list_elem_of_singleton. by eapply Hlive.
      * apply NoDup_singleton.
    + intros k it Hit.
      apply lookup_delete_Some in Hit as [Hne Hit].
      rewrite app_assoc, elem_of_app, list_elem_of_singleton.
      intros [Hin|Heq]; [by eapply Hlive|].
      apply Hne. symmetry. by eapply Hinj.
    + intros k1 k2 i1 i2 [_ H1]%lookup_delete_Some [_ H2]%lookup_delete_Some.
      by eapply Hinj.
  - rewrite app_nil_r. split; [done|]. split.
    + intros k it [_ Hit]%lookup_delete_Some. by eapply Hlive.
    + intros k1 k2 i1 i2 [_ H1]%lookup_delete_Some [_ H2]%lookup_delete_Some.
      by eapply Hinj.
Qed.

Lemma foldl_evict_disposers_ok l log acc :
  disposers_ok (log ++ acc.1) acc.2 →
  disposers_ok (log ++ (foldl ImageCacheMap.evict acc l).1)
               (foldl ImageCacheMap.evict acc l).2.
Proof.
  revert acc. induction l as [|key l IH]; intros acc H; simpl; [done|].
  by apply IH, evict_disposers_ok.
Qed.

End Evict.

Section Invariants.
Implicit Types (m : ImageCacheMap.t) (key k : string) (row col r c : Z).

(** *** Entries stay filed under their own key *)

Lemma keys_agree_update key row col m :
  keys_agree m → keys_agree (ImageCacheMap.update key row col m).
Proof.
  intros H k item. rewrite map_update.
  destruct (ImageCacheMap._map m !! key) as [it|] eqn:Hkey; [|apply H].
  destruct (decide (k = key)) as [->|Hne].
  - rewrite lookup_insert_eq. intros [= <-]. simpl. by apply H.
  - rewrite lookup_insert_ne by done. apply H.
Qed.

Lemma keys_agree_set key imageCache m :
  IImageCache.key imageCache = key →
  keys_agree m → keys_agree (ImageCacheMap.set key imageCache m).
Proof.
  intros Hkey H. apply keys_agree_update. intros k item; simpl.
  destruct (decide (k = key)) as [->|Hne].
  - rewrite lookup_insert_eq. by intros [= <-].
  - rewrite lookup_insert_ne by done. apply H.
Qed.

Lemma keys_agree_delete key m :
  keys_agree m → keys_agree (ImageCacheMap.delete key m).2.
Proof.
  intros H k item. unfold ImageCacheMap.delete; simpl.
  rewrite evict_map; simpl. intros [_ Hk]%lookup_delete_Some.
  by eapply keys_agree_update.
Qed.

Lemma keys_agree_deleteByPosition row col m :
  keys_agree m → keys_agree (ImageCacheMap.deleteByPosition row col m).2.
Proof.
  intros H. unfold ImageCacheMap.deleteByPosition.
  destruct (ImageCacheMap._poistionMap m !! row) as [rowMap|]; [|done].
  destruct (rowMap !! col) as [colMap|]; [|done].
  intros k item; simpl. rewrite foldl_evict_lookup.
  case_decide; [done|]. apply H.
Qed.

Lemma keys_agree_step s op :
  keyed_op op → keys_agree (cache s) → keys_agree (cache (step s op)).
Proof.
  destruct op; simpl; intros Hop H.
  - by apply keys_agree_set.
  - by apply keys_agree_update.
  - by apply keys_agree_delete.
  - by apply keys_agree_deleteByPosition.
Qed.

Lemma run_snoc ops op : run (ops ++ [op]) = step (run ops) op.
Proof. unfold run. by rewrite foldl_app. Qed.

Lemma keys_agree_run ops : keyed ops → keys_agree (cache (run ops)).
Proof.
  induction ops as [|op ops IH] using rev_ind; intros Hk.
  - intros k item. unfold run; simpl. by rewrite lookup_empty.
  - rewrite run_snoc. apply Forall_app in Hk as [Hops Hop].
    apply keys_agree_step; [by inversion Hop | by apply IH].
Qed.

(** *** Positioned entries are listed in the bucket of their position *)

Lemma bucket_update_keeps key row col m k r c colMap :
  k ≠ key →
  ImageCacheMap.bucket m r c = Some colMap → k ∈ colMap →
  ∃ colMap', ImageCacheMap.bucket (ImageCacheMap.update key row col m) r c
             = Some colMap' ∧ k ∈ colMap'.
Proof.
  intros Hne Hb Hin.
  assert (∃ colMap', ImageCacheMap.bucket (ImageCacheMap.update_item key row col m) r c
                     = Some colMap' ∧ k ∈ colMap') as (b1 & Hb1 & Hin1).
  { rewrite bucket_update_item, Hb. case_decide; [|eauto].
    eexists; split; [done|]. by apply elem_of_Set_delete. }
  unfold ImageCacheMap.update.
  destruct (decide (row = -1 ∨ col = -1)) as [Hd|Hd].
  - rewrite update_index_detached by done. eauto.
  - rewrite bucket_update_index by tauto.
    case_decide as Heq; [|eauto]. destruct Heq as [-> ->].
    eexists; split; [done|]. apply elem_of_Set_add. right. by rewrite Hb1.
Qed.

Lemma placed_at_update_self key row col m :
  placed_at key (ImageCacheMap.update key row col m).
Proof.
  intros item. rewrite map_update.
  destruct (ImageCacheMap._map m !! key) as [it|] eqn:Hkey.
  - rewrite lookup_insert_eq. intros [= <-]; simpl. intros Hr Hc.
    unfold ImageCacheMap.update. rewrite bucket_update_index by done.
    rewrite decide_True by done. eexists; split; [done|].
    apply elem_of_Set_add. by left.
  - by rewrite Hkey.
Qed.

Lemma placed_at_update_other key row col m k :
  k ≠ key → placed_at k m → placed_at k (ImageCacheMap.update key row col m).
Proof.
  intros Hne H item. rewrite map_update.
  destruct (ImageCacheMap._map m !! key) as [it|] eqn:Hkey;
    rewrite ?lookup_insert_ne by done; intros Hk Hr Hc;
    destruct (H item Hk Hr Hc) as (colMap & Hb & Hin);
    by eapply bucket_update_keeps.
Qed.

Lemma placed_update key row col m :
  placed m → placed (ImageCacheMap.update key row col m).
Proof.
  intros H k. destruct (decide (k = key)) as [->|Hne].
  - apply placed_at_update_self.
  - by apply placed_at_update_other.
Qed.

Lemma placed_set key imageCache m :
  placed m → placed (ImageCacheMap.set key imageCache m).
Proof.
  intros H k. unfold ImageCacheMap.set.
  destruct (decide (k = key)) as [->|Hne].
  - apply placed_at_update_self.
  - apply placed_at_update_other; [done|].
    intros item; simpl. rewrite lookup_insert_ne by done. apply H.
Qed.

Lemma placed_delete key m :
  placed m → placed (ImageCacheMap.delete key m).2.
Proof.
  intros H k item. unfold ImageCacheMap.delete; simpl.
  rewrite evict_map; simpl. intros [Hne Hk]%lookup_delete_Some Hr Hc.
  by apply (placed_update key (-1) (-1) m H k item).
Qed.

Lemma bucket_drop (pm : gmap Z (gmap Z (list string))) rowMap mp row col r c :
  pm !! row = Some rowMap →
  ImageCacheMap.bucket (ImageCacheMap.mk mp (<[row := base.delete col rowMap]> pm)) r c
  = if decide (r = row ∧ c = col) then None
    else ImageCacheMap.bucket (ImageCacheMap.mk mp pm) r c.
Proof.
  intros Hrow. unfold ImageCacheMap.bucket; simpl.
  destruct (decide (r = row)) as [->|Hr].
  - rewrite lookup_insert_eq, Hrow; simpl.
    destruct (decide (c = col)) as [->|Hc].
    + rewrite lookup_delete_eq. by rewrite decide_True.
    + rewrite lookup_delete_ne by done. by rewrite decide_False by tauto.
  - rewrite lookup_insert_ne by done. by rewrite decide_False by tauto.
Qed.

Lemma placed_deleteByPosition row col m :
  placed m → placed (ImageCacheMap.deleteByPosition row col m).2.
Proof.
  intros H. unfold ImageCacheMap.deleteByPosition.
  destruct (ImageCacheMap._poistionMap m !! row) as [rowMap|] eqn:Hrow; [|done].
  destruct (rowMap !! col) as [colMap|] eqn:Hcol; [|done].
  intros k item; simpl. rewrite foldl_evict_lookup.
  case_decide as Hin; [done|]. intros Hk Hr Hc.
  destruct (H k item Hk Hr Hc) as (b & Hb & Hkb).
  destruct m as [mp pm]; simpl in *.
  rewrite (bucket_drop pm rowMap) by done.
  case_decide as Heq; [|eauto]. destruct Heq as [Heq1 Heq2].
  rewrite Heq1, Heq2 in Hb. unfold ImageCacheMap.bucket in Hb; simpl in Hb.
  rewrite Hrow in Hb; simpl in Hb. congruence.
Qed.

Lemma placed_step s op : placed (cache s) → placed (cache (step s op)).
Proof.
  destruct op; simpl; intros H.
  - by apply placed_set.
  - by apply placed_update.
  - by apply placed_delete.
  - by apply placed_deleteByPosition.
Qed.

Lemma placed_run ops : placed (cache (run ops)).
Proof.
  induction ops as [|op ops IH] using rev_ind.
  - intros k item. unfold run; simpl. by rewrite lookup_empty.
  - rewrite run_snoc. by apply placed_step.
Qed.

End Invariants.

Section Records.
Implicit Types (m : ImageCacheMap.t) (key k : string) (row col r c : Z).
Implicit Types (items : list IImageCache) (e item : IImageCache).

Lemma foldl_record_Some items (acc : gmap string IImageCache) k e :
  foldl (λ record item, <[IImageCache.key item := item]> record) acc items !! k = Some e →
  (e ∈ items ∧ IImageCache.key e = k) ∨ acc !! k = Some e.
Proof.
  revert acc. induction items as [|item items IH]; intros acc; simpl; [by right|].
  intros [[Hin Hk]|Hacc]%IH.
  - left. split; [by right|done].
  - destruct (decide (IImageCache.key item = k)) as [Heq|Hne].
    + rewrite <- Heq, lookup_insert_eq in Hacc. injection Hacc as <-.
      left. split; [by left|done].
    + rewrite lookup_insert_ne in Hacc by done. by right.
Qed.

Lemma makeRecord_Some items k e :
  makeRecord items !! k = Some e → e ∈ items ∧ IImageCache.key e = k.
Proof.
  intros [H|H]%foldl_record_Some; [done|]. by rewrite lookup_empty in H.
Qed.

Lemma foldl_record_None items (acc : gmap string IImageCache) k :
  acc !! k = None → (∀ e, e ∈ items → IImageCache.key e ≠ k) →
  foldl (λ record item, <[IImageCache.key item := item]> record) acc items !! k = None.
Proof.
  revert acc. induction items as [|item items IH]; intros acc Hacc Hne; simpl; [done|].
  apply IH.
  - rewrite lookup_insert_ne; [done|]. apply Hne. by left.
  - intros e He. apply Hne. by right.
Qed.

Lemma foldl_record_unique items (acc : gmap string IImageCache) item :
  (∀ e, e ∈ items → IImageCache.key e = IImageCache.key item → e = item) →
  item ∈ items ∨ acc !! IImageCache.key item = Some item →
  foldl (λ record i, <[IImageCache.key i := i]> record) acc items
    !! IImageCache.key item = Some item.
Proof.
  revert acc. induction items as [|i items IH]; intros acc Huniq Hin; simpl.
  - destruct Hin as [Hin|Hin]; [by apply elem_of_nil in Hin|done].
  - apply IH; [intros e He; apply Huniq; by right|].
    destruct (decide (IImageCache.key i = IImageCache.key item)) as [Heq|Hne].
    + right. rewrite (Huniq i) by (by left || done). by rewrite lookup_insert_eq.
    + destruct Hin as [Hin|Hin].
      * apply elem_of_cons in Hin as [<-|Hin]; [done|by left].
      * right. by rewrite lookup_insert_ne.
Qed.

Lemma getByPosition_bucket row col m :
  ImageCacheMap._getByPosition row col m
  = omap (λ key, ImageCacheMap._map m !! key)
         (default [] (ImageCacheMap.bucket m row col)).
Proof.
  unfold ImageCacheMap._getByPosition, ImageCacheMap.bucket.
  by destruct (ImageCacheMap._poistionMap m !! row).
Qed.

Lemma elem_of_getByPosition row col m e :
  e ∈ ImageCacheMap._getByPosition row col m ↔
  ∃ k, k ∈ default [] (ImageCacheMap.bucket m row col)
       ∧ ImageCacheMap._map m !! k = Some e.
Proof. rewrite getByPosition_bucket. apply list_elem_of_omap. Qed.

(** The record of a position holds, under each key, an entry of the
    primary map whose [key] field is that key. *)
Lemma getByPosition_Some row col m k e :
  ImageCacheMap.getByPosition row col m !! k = Some e →
  IImageCache.key e = k ∧
  ∃ k', k' ∈ default [] (ImageCacheMap.bucket m row col)
        ∧ ImageCacheMap._map m !! k' = Some e.
Proof.
  intros [Hin Hk]%makeRecord_Some. split; [done|].
  by apply elem_of_getByPosition.
Qed.

(** With entries filed under their own keys, a positioned entry is found
    in the record of its position. *)
Lemma getByPosition_placed m k item :
  keys_agree m → placed m →
  ImageCacheMap._map m !! k = Some item →
  IImageCache.row item ≠ -1 → IImageCache.col item ≠ -1 →
  ImageCacheMap.getByPosition (IImageCache.row item) (IImageCache.col item) m !! k
  = Some item.
Proof.
  intros Hkeys Hplaced Hk Hr Hc.
  destruct (Hplaced k item Hk Hr Hc) as (colMap & Hb & Hin).
  rewrite <- (Hkeys k item Hk). apply foldl_record_unique.
  - intros e [k' [_ Hk']]%elem_of_getByPosition Heq.
    rewrite (Hkeys _ _ Hk'), (Hkeys _ _ Hk) in Heq. subst k'. congruence.
  - left. apply elem_of_getByPosition. exists k. by rewrite Hb.
Qed.

End Records.

(** * The claims about [ImageCacheMap] *)



(** C1, evaluated.  [update] takes the key out of the bucket of the new
    position, not of the one the entry is leaving: after [set] at (2,3) and
    [update] to (5,3) the key is listed in both buckets, and [getByPosition]
    at the old position still returns the entry, which says it is at (5,3). *)
Theorem update_keeps_key_in_old_bucket :
  let m := cache (run [OpSet "img1" (IImageCache.mk 0 0 2 3 "img1" loading);
                       OpUpdate "img1" 5 3]) in
  ImageCacheMap.getByKey "img1" m = Some (IImageCache.mk 0 0 5 3 "img1" loading)
  ∧ ImageCacheMap.bucket m 5 3 = Some ["img1"]
  ∧ ImageCacheMap.bucket m 2 3 = Some ["img1"]
  ∧ ImageCacheMap.getByPosition 2 3 m !! "img1"
    = Some (IImageCache.mk 0 0 5 3 "img1" loading).
Proof. vm_compute. done. Qed.

(** The part of index coherence that does hold: a positioned entry of a
    reachable cache is listed in the bucket of its position and is returned
    by [getByPosition] there. *)
Lemma positioned_entry_found (ops : list Op) (k : string) (item : IImageCache) :
  keyed ops →
  ImageCacheMap.getByKey k (cache (run ops)) = Some item →
  IImageCache.row item ≠ -1 → IImageCache.col item ≠ -1 →
  ImageCacheMap.getByPosition (IImageCache.row item) (IImageCache.col item)
    (cache (run ops)) !! k = Some item.
Proof.
  intros Hkeyed Hk Hr Hc.
  apply getByPosition_placed; auto using keys_agree_run, placed_run.
Qed.

(** [delete] leaves the key behind in its bucket. *)
Lemma delete_leaves_key_in_bucket :
  let m := cache (run [OpSet "img1" (IImageCache.mk 0 0 2 3 "img1" loading);
                       OpDelete "img1"]) in
  ImageCacheMap.getByKey "img1" m = None
  ∧ ImageCacheMap.bucket m 2 3 = Some ["img1"].
Proof. vm_compute. done. Qed.

(** C8, evaluated.  [deleteByPosition] removes what the bucket lists, and
    the bucket of (2,3) still lists the entry that was moved to (5,3): the
    entry is disposed and removed although its position is another one. *)
Theorem deleteByPosition_evicts_moved_entry :
  let m := cache (run [OpSet "img1" (IImageCache.mk 0 0 2 3 "img1" loading);
                       OpUpdate "img1" 5 3]) in
  let r := ImageCacheMap.deleteByPosition 2 3 m in
  ImageCacheMap.getByKey "img1" m = Some (IImageCache.mk 0 0 5 3 "img1" loading)
  ∧ r.1 = [0%nat]
  ∧ ImageCacheMap.getByKey "img1" r.2 = None.
Proof. vm_compute. done. Qed.

(** The part of the eviction claim that does hold: every entry whose
    position is [(row, col)] is removed and its disposable released. *)
Lemma deleteByPosition_evicts_position (m : ImageCacheMap.t) (row col : Z)
    (k : string) (item : IImageCache) :
  placed m →
  ImageCacheMap._map m !! k = Some item →
  IImageCache.row item = row → IImageCache.col item = col →
  row ≠ -1 → col ≠ -1 →
  ImageCacheMap.getByKey k (ImageCacheMap.deleteByPosition row col m).2 = None
  ∧ IImageCache.disposable item ∈ (ImageCacheMap.deleteByPosition row col m).1.
Proof.
  intros Hplaced Hk <- <- Hr Hc.
  destruct (Hplaced k item Hk Hr Hc) as (colMap & Hb & Hin).
  unfold ImageCacheMap.bucket in Hb. unfold ImageCacheMap.deleteByPosition.
  destruct (ImageCacheMap._poistionMap m !! IImageCache.row item) as [rowMap|];
    simpl in Hb; [|done].
  rewrite Hb. unfold ImageCacheMap.getByKey; simpl. split.
  - rewrite foldl_evict_lookup. by rewrite decide_True.
  - by apply (foldl_evict_released colMap ([], ImageCacheMap._map m) k item).
Qed.

(** What [update] does for a key that has no entry: it creates no entry;
    with a coordinate equal to [-1] it leaves the cache as it was; otherwise
    it adds the key to the bucket of [(row, col)] and changes no other
    bucket.  The lookups made right after it answer as before, since
    [_getByPosition] drops keys without an entry. *)
Lemma update_without_entry (m : ImageCacheMap.t) (key : string) (row col : Z) :
  ImageCacheMap._map m !! key = None →
  let m' := ImageCacheMap.update key row col m in
  ImageCacheMap._map m' = ImageCacheMap._map m
  ∧ (row = -1 ∨ col = -1 → m' = m)
  ∧ (row ≠ -1 → col ≠ -1 → ∀ r c,
       ImageCacheMap.bucket m' r c
       = if decide (r = row ∧ c = col)
         then Some (Set_add key (default [] (ImageCacheMap.bucket m row col)))
         else ImageCacheMap.bucket m r c)
  ∧ (∀ k, ImageCacheMap.getByKey k m' = ImageCacheMap.getByKey k m)
  ∧ (∀ r c, ImageCacheMap.getByPosition r c m' = ImageCacheMap.getByPosition r c m).
Proof.
  intros Hkey m'.
  assert (ImageCacheMap.update_item key row col m = m) as Hitem.
  { unfold ImageCacheMap.update_item. by rewrite Hkey. }
  assert (ImageCacheMap._map m' = ImageCacheMap._map m) as Hmap.
  { unfold m'. by rewrite map_update, Hkey. }
  assert (row ≠ -1 → col ≠ -1 → ∀ r c,
       ImageCacheMap.bucket m' r c
       = if decide (r = row ∧ c = col)
         then Some (Set_add key (default [] (ImageCacheMap.bucket m row col)))
         else ImageCacheMap.bucket m r c) as Hbucket.
  { intros Hr Hc r c. unfold m', ImageCacheMap.update.
    by rewrite Hitem, bucket_update_index. }
  split; [done|]. split.
  { intros Hd. unfold m', ImageCacheMap.update.
    by rewrite Hitem, update_index_detached. }
  split; [done|]. split.
  { intros k. unfold ImageCacheMap.getByKey. by rewrite Hmap. }
  intros r c. unfold ImageCacheMap.getByPosition. f_equal.
  rewrite !getByPosition_bucket, Hmap.
  destruct (decide (row = -1 ∨ col = -1)) as [Hd|Hd].
  { unfold m', ImageCacheMap.update.
    by rewrite Hitem, update_index_detached. }
  rewrite Hbucket by tauto.
  case_decide as Heq; [|done]. destruct Heq as [-> ->]. simpl.
  unfold Set_add. case_decide; [by destruct (ImageCacheMap.bucket m row col)|].
  rewrite omap_app. simpl. rewrite Hkey. simpl. by rewrite app_nil_r.
Qed.

(** C7, evaluated.  [update] on a key that has no entry is not a no-op: on
    a new cache [update "a" 0 0] creates no entry but lists the key in the
    bucket of (0,0), so the cache is no longer the new one.  The orphan key
    shows later: once an entry is [set] under "a" at (7,7), the lookup at
    (0,0) returns that entry and [deleteByPosition 0 0] disposes and removes
    it. *)
Theorem update_absent_key_leaves_orphan :
  let m0 := cache (run [OpUpdate "a" 0 0]) in
  let m1 := cache (run [OpUpdate "a" 0 0;
                        OpSet "a" (IImageCache.mk 0 0 7 7 "a" loading)]) in
  let r := ImageCacheMap.deleteByPosition 0 0 m1 in
  ImageCacheMap.getByKey "a" ImageCacheMap.new = None
  ∧ ImageCacheMap.getByKey "a" m0 = None
  ∧ ImageCacheMap.bucket ImageCacheMap.new 0 0 = None
  ∧ ImageCacheMap.bucket m0 0 0 = Some ["a"]
  ∧ m0 ≠ ImageCacheMap.new
  ∧ ImageCacheMap.getByPosition 0 0 m1 !! "a"
    = Some (IImageCache.mk 0 0 7 7 "a" loading)
  ∧ r.1 = [0%nat]
  ∧ ImageCacheMap.getByKey "a" r.2 = None.
Proof.
  cbv zeta. repeat split; try (vm_compute; reflexivity).
  intros H. apply (f_equal (λ m, ImageCacheMap.bucket m 0 0)) in H.
  vm_compute in H. discriminate.
Qed.

(** * Disposables *)

Section Disposers.
Implicit Types (m : ImageCacheMap.t) (key k : string) (row col r c : Z).
Implicit Types (log : list nat).

Lemma dispose_count_0 log d : d ∉ log → dispose_count d log = 0%nat.
Proof.
  unfold dispose_count. induction log as [|x log IH]; [done|].
  intros Hd. rewrite filter_cons. case_decide as Heq.
  - subst x. destruct Hd. by left.
  - apply IH. intros Hin. apply Hd. by right.
Qed.

Lemma dispose_count_NoDup log d : NoDup log → (dispose_count d log ≤ 1)%nat.
Proof.
  induction 1 as [|x l Hx Hnd IH]; [unfold dispose_count; simpl; lia|].
  unfold dispose_count in *. rewrite filter_cons. case_decide as Heq; [|done].
  subst x. pose proof (dispose_count_0 l d Hx) as H0.
  unfold dispose_count in H0. simpl. rewrite H0. lia.
Qed.

Lemma dispose_count_1 log d : NoDup log → d ∈ log → dispose_count d log = 1%nat.
Proof.
  intros Hnd Hd. pose proof (dispose_count_NoDup log d Hnd).
  destruct (dispose_count d log) as [|n] eqn:Hc; [|lia].
  unfold dispose_count in Hc. apply nil_length_inv in Hc.
  assert (d ∈ filter (λ x, x = d) log) as Hin by by apply list_elem_of_filter.
  rewrite Hc in Hin. by apply elem_of_nil in Hin.
Qed.

Lemma disposers_ok_update log key row col m :
  disposers_ok log (ImageCacheMap._map m) →
  disposers_ok log (ImageCacheMap._map (ImageCacheMap.update key row col m)).
Proof.
  intros (Hnd & Hlive & Hinj). rewrite map_update.
  destruct (ImageCacheMap._map m !! key) as [it|] eqn:Hkey; [|done].
  assert (∀ k item,
    <[key := IImageCache.move it row col]> (ImageCacheMap._map m) !! k = Some item →
    ∃ item', ImageCacheMap._map m !! k = Some item'
             ∧ IImageCache.disposable item' = IImageCache.disposable item) as Hsame.
  { intros k item. destruct (decide (k = key)) as [->|Hne].
    - rewrite lookup_insert_eq. intros [= <-]. eauto.
    - rewrite lookup_insert_ne by done. eauto. }
  split; [done|]. split.
  - intros k item (item' & Hk & <-)%Hsame. by eapply Hlive.
  - intros k1 k2 i1 i2 (i1' & H1 & Hd1)%Hsame (i2' & H2 & Hd2)%Hsame Heq.
    eapply Hinj; [done..|]. congruence.
Qed.

Lemma disposers_ok_set log key imageCache m :
  IImageCache.disposable imageCache ∉ log →
  (∀ k item, ImageCacheMap._map m !! k = Some item →
     IImageCache.disposable item ≠ IImageCache.disposable imageCache) →
  disposers_ok log (ImageCacheMap._map m) →
  disposers_ok log (ImageCacheMap._map (ImageCacheMap.set key imageCache m)).
Proof.
  intros Hlog Hfresh (Hnd & Hlive & Hinj).
  apply disposers_ok_update; simpl.
  split; [done|]. split.
  - intros k item. destruct (decide (k = key)) as [->|Hne].
    + rewrite lookup_insert_eq. by intros [= <-].
    + rewrite lookup_insert_ne by done. apply Hlive.
  - intros k1 k2 i1 i2.
    destruct (decide (k1 = key)) as [->|Hne1], (decide (k2 = key)) as [->|Hne2];
      rewrite ?lookup_insert_eq, ?lookup_insert_ne by done; [done|..].
    + intros [= <-] H2 Heq. by destruct (Hfresh _ _ H2).
    + intros H1 [= <-] Heq. by destruct (Hfresh _ _ H1).
    + apply Hinj.
Qed.

Lemma disposers_ok_delete log key m :
  disposers_ok log (ImageCacheMap._map m) →
  disposers_ok (log ++ (ImageCacheMap.delete key m).1)
               (ImageCacheMap._map (ImageCacheMap.delete key m).2).
Proof.
  intros H. unfold ImageCacheMap.delete; simpl.
  apply (evict_disposers_ok log ([], _)); simpl.
  rewrite app_nil_r. by apply disposers_ok_update.
Qed.

Lemma disposers_ok_deleteByPosition log row col m :
  disposers_ok log (ImageCacheMap._map m) →
  disposers_ok (log ++ (ImageCacheMap.deleteByPosition row col m).1)
               (ImageCacheMap._map (ImageCacheMap.deleteByPosition row col m).2).
Proof.
  intros H. unfold ImageCacheMap.deleteByPosition.
  destruct (ImageCacheMap._poistionMap m !! row) as [rowMap|];
    [|by rewrite app_nil_r].
  destruct (rowMap !! col) as [colMap|]; [|by rewrite app_nil_r].
  simpl. apply (foldl_evict_disposers_ok colMap log ([], _)); simpl.
  by rewrite app_nil_r.
Qed.

(** What [delete] and [deleteByPosition] release belonged to an entry. *)
Lemma delete_origin key m d :
  d ∈ (ImageCacheMap.delete key m).1 →
  ∃ k item, ImageCacheMap._map m !! k = Some item ∧ IImageCache.disposable item = d.
Proof.
  unfold ImageCacheMap.delete; simpl. rewrite evict_log; simpl.
  rewrite map_update.
  destruct (ImageCacheMap._map m !! key) as [it|] eqn:Hkey.
  - rewrite lookup_insert_eq. intros ->%list_elem_of_singleton. simpl. eauto.
  - rewrite Hkey. by intros ?%elem_of_nil.
Qed.

Lemma deleteByPosition_origin row col m d :
  d ∈ (ImageCacheMap.deleteByPosition row col m).1 →
  ∃ k item, ImageCacheMap._map m !! k = Some item ∧ IImageCache.disposable item = d.
Proof.
  unfold ImageCacheMap.deleteByPosition.
  destruct (ImageCacheMap._poistionMap m !! row) as [rowMap|];
    [|by intros ?%elem_of_nil].
  destruct (rowMap !! col) as [colMap|]; [|by intros ?%elem_of_nil].
  simpl. intros [Hd|Hd]%foldl_evict_origin; [by apply elem_of_nil in Hd|done].
Qed.

(** The entries of the cache after an operation other than [set] are
    those before it, up to their position. *)
Lemma update_origin key row col m k item :
  ImageCacheMap._map (ImageCacheMap.update key row col m) !! k = Some item →
  ∃ item', ImageCacheMap._map m !! k = Some item'
           ∧ IImageCache.disposable item' = IImageCache.disposable item.
Proof.
  rewrite map_update.
  destruct (ImageCacheMap._map m !! key) as [it|] eqn:Hkey; [|eauto].
  destruct (decide (k = key)) as [->|Hne].
  - rewrite lookup_insert_eq. intros [= <-]. eauto.
  - rewrite lookup_insert_ne by done. eauto.
Qed.

Lemma created_snoc ops op : created (ops ++ [op]) = created ops ++ created [op].
Proof. unfold created. by rewrite omap_app. Qed.

(** Along a sequence whose entries each carry a disposable of their own,
    the log and the cache only mention disposables that were created. *)
Lemma disposers_run ops :
  NoDup (created ops) →
  disposers_ok (disposed (run ops)) (ImageCacheMap._map (cache (run ops)))
  ∧ (∀ d, d ∈ disposed (run ops) → d ∈ created ops)
  ∧ (∀ k item, ImageCacheMap._map (cache (run ops)) !! k = Some item →
       IImageCache.disposable item ∈ created ops).
Proof.
  induction ops as [|op ops IH] using rev_ind; intros Hnd.
  { unfold run; simpl. split; [|split].
    - split; [constructor|]. split; intros *; by rewrite lookup_empty.
    - by intros d ?%elem_of_nil.
    - intros *. by rewrite lookup_empty. }
  rewrite created_snoc in Hnd. apply NoDup_app in Hnd as (Hnd & Hfresh & _).
  destruct (IH Hnd) as (Hok & Hlog & Hlive).
  rewrite run_snoc, created_snoc. destruct op as [key ic|key row col|key|row col]; simpl.
  - assert (IImageCache.disposable ic ∉ created ops) as Hic.
    { intros Hin. eapply Hfresh; [done|]. simpl. by left. }
    split; [|split].
    + apply disposers_ok_set; [by intros ?%Hlog| |done].
      intros k item Hk Heq. apply Hic. rewrite <- Heq. by eapply Hlive.
    + intros d Hd. apply elem_of_app. left. by apply Hlog.
    + intros k item [item' [Hk <-]]%update_origin. simpl in Hk.
      apply elem_of_app. destruct (decide (k = key)) as [->|Hne].
      * rewrite lookup_insert_eq in Hk. injection Hk as <-. right. by left.
      * rewrite lookup_insert_ne in Hk by done. left. by eapply Hlive.
  - rewrite app_nil_r. split; [|split].
    + by apply disposers_ok_update.
    + done.
    + intros k item [item' [Hk <-]]%update_origin. by eapply Hlive.
  - rewrite app_nil_r. split; [|split].
    + by apply disposers_ok_delete.
    + intros d [Hd|Hd]%elem_of_app; [by apply Hlog|].
      apply delete_origin in Hd as (k & item & Hk & <-). by eapply Hlive.
    + intros k item. unfold ImageCacheMap.delete; simpl. rewrite evict_map; simpl.
      intros [_ [item' [Hk <-]]%update_origin]%lookup_delete_Some.
      by eapply Hlive.
  - rewrite app_nil_r. split; [|split].
    + by apply disposers_ok_deleteByPosition.
    + intros d [Hd|Hd]%elem_of_app; [by apply Hlog|].
      apply deleteByPosition_origin in Hd as (k & item & Hk & <-). by eapply Hlive.
    + intros k item. unfold ImageCacheMap.deleteByPosition.
      destruct (ImageCacheMap._poistionMap (cache (run ops)) !! row) as [rowMap|];
        [|apply Hlive].
      destruct (rowMap !! col) as [colMap|]; [|apply Hlive].
      simpl. rewrite foldl_evict_lookup. case_decide; [done|]. apply Hlive.
Qed.

(** An entry that [delete] or [deleteByPosition] removes is disposed by
    it. *)
Lemma delete_releases key m k item :
  ImageCacheMap._map m !! k = Some item →
  ImageCacheMap._map (ImageCacheMap.delete key m).2 !! k = None →
  IImageCache.disposable item ∈ (ImageCacheMap.delete key m).1.
Proof.
  unfold ImageCacheMap.delete; simpl. rewrite evict_map, evict_log; simpl.
  rewrite map_update. intros Hk.
  destruct (decide (k = key)) as [->|Hne].
  - rewrite Hk, lookup_insert_eq. intros _. simpl. by left.
  - rewrite lookup_delete_ne by done.
    destruct (ImageCacheMap._map m !! key);
      rewrite ?lookup_insert_ne by done; congruence.
Qed.

Lemma deleteByPosition_releases row col m k item :
  ImageCacheMap._map m !! k = Some item →
  ImageCacheMap._map (ImageCacheMap.deleteByPosition row col m).2 !! k = None →
  IImageCache.disposable item ∈ (ImageCacheMap.deleteByPosition row col m).1.
Proof.
  unfold ImageCacheMap.deleteByPosition. intros Hk.
  destruct (ImageCacheMap._poistionMap m !! row) as [rowMap|]; [|simpl; congruence].
  destruct (rowMap !! col) as [colMap|]; [|simpl; congruence].
  simpl. rewrite foldl_evict_lookup. case_decide as Hin; [|simpl; congruence].
  intros _. by apply (foldl_evict_released colMap ([], ImageCacheMap._map m) k item).
Qed.

End Disposers.

(** * Properties of [SheetCellCacheManagerService] *)

Section Service.
Import SheetCellCacheManagerService.
Implicit Types (s : SheetCellCacheManagerService.t) (m map : ImageCacheMap.t).
Implicit Types (unitId subUnitId key k u su : string) (row col r c : Z).

Lemma getMap_putMap u su unitId subUnitId m s :
  getMap u su (putMap unitId subUnitId m s)
  = if decide (u = unitId ∧ su = subUnitId) then Some m else getMap u su s.
Proof.
  unfold getMap, putMap; simpl.
  destruct (decide (u = unitId)) as [->|Hu].
  - rewrite lookup_insert_eq; simpl.
    destruct (decide (su = subUnitId)) as [->|Hsu].
    + rewrite lookup_insert_eq. by rewrite decide_True.
    + rewrite lookup_insert_ne by done. rewrite decide_False by tauto.
      by destruct (_imageMaps s !! unitId).
  - rewrite lookup_insert_ne by done. by rewrite decide_False by tauto.
Qed.

Lemma caches_putMap (P : ImageCacheMap.t → Prop) unitId subUnitId m s :
  P m → caches P s → caches P (putMap unitId subUnitId m s).
Proof.
  intros Hm Hs u su map. rewrite getMap_putMap.
  case_decide; [by intros [= <-]|apply Hs].
Qed.

(** [caches] only looks at [_imageMaps]. *)
Lemma caches_ext (P : ImageCacheMap.t → Prop) s s' :
  _imageMaps s' = _imageMaps s → caches P s → caches P s'.
Proof. intros Heq H u su map. unfold getMap. rewrite Heq. apply H. Qed.

Lemma caches_default (P : ImageCacheMap.t → Prop) unitId subUnitId s :
  P ImageCacheMap.new → caches P s →
  P (default ImageCacheMap.new (getMap unitId subUnitId s)).
Proof.
  intros Hnew Hs. destruct (getMap unitId subUnitId s) as [map|] eqn:Hmap; [|done].
  by eapply Hs.
Qed.

Lemma keys_agree_new : keys_agree ImageCacheMap.new.
Proof. intros k item. simpl. by rewrite lookup_empty. Qed.

Lemma keys_agree_handleDrawing unitId subUnitId row col doc imageCache s key :
  caches keys_agree s →
  caches keys_agree (handleDrawing unitId subUnitId row col doc imageCache s key).
Proof.
  intros H. unfold handleDrawing.
  destruct (imageCache !! key); [done|]. case_decide as Hproto; [done|].
  destruct (drawings doc); [|done].
  eapply caches_ext; [reflexivity|]. apply caches_putMap; [|done].
  apply keys_agree_set; [done|]. by apply caches_default; [apply keys_agree_new|].
Qed.

Lemma keys_agree_evictCell unitId subUnitId row col s loads' disposals' :
  caches keys_agree s →
  let r := ImageCacheMap.deleteByPosition row col
             (default ImageCacheMap.new (getMap unitId subUnitId s)) in
  let s' := putMap unitId subUnitId r.2 s in
  caches keys_agree
    (mk (_imageMaps s') (_initedMap s') (_collection s') (watches s') (images s')
        loads' disposals').
Proof.
  intros H r s'. eapply caches_ext; [reflexivity|]. apply caches_putMap; [|done].
  apply keys_agree_deleteByPosition. by apply caches_default; [apply keys_agree_new|].
Qed.

Lemma keys_agree_handleCell unitId subUnitId s entry :
  caches keys_agree s → caches keys_agree (handleCell unitId subUnitId s entry).
Proof.
  intros H. destruct entry as [[row col] cell]. unfold handleCell.
  destruct (cell ≫= p) as [doc|]; [|by apply keys_agree_evictCell].
  destruct (drawingsOrder doc) as [[|key order]|]; try by apply keys_agree_evictCell.
  generalize (ImageCacheMap.getByPosition row col
                (default ImageCacheMap.new (getMap unitId subUnitId s))).
  intros imageCache. generalize (key :: order). intros keys.
  revert s H. induction keys as [|k keys IH]; intros s H; simpl; [done|].
  by apply IH, keys_agree_handleDrawing.
Qed.

Lemma keys_agree_handleMatrix unitId subUnitId matrix s :
  caches keys_agree s → caches keys_agree (_handleMatrix unitId subUnitId matrix s).
Proof.
  intros H. unfold _handleMatrix.
  assert (caches keys_agree (_ensureMap unitId subUnitId s).2) as H'.
  { unfold _ensureMap. destruct (getMap unitId subUnitId s); [done|].
    simpl. by apply caches_putMap; [apply keys_agree_new|]. }
  revert H'. generalize (_ensureMap unitId subUnitId s).2. clear s H.
  induction matrix as [|entry matrix IH]; intros s H; simpl; [done|].
  by apply IH, keys_agree_handleCell.
Qed.

Lemma keys_agree_watchCallback unitId subUnitId key after s :
  caches keys_agree s →
  caches keys_agree (watchCallback unitId subUnitId key after s).
Proof.
  intros H. unfold watchCallback.
  destruct (getMap unitId subUnitId s) as [map|] eqn:Hmap; [|done].
  destruct after as [after|].
  - apply caches_putMap; [|done]. apply keys_agree_update. by eapply H.
  - eapply caches_ext; [reflexivity|]. apply caches_putMap; [|done].
    apply keys_agree_delete. by eapply H.
Qed.

Lemma keys_agree_settle st unitId subUnitId key disposable s :
  caches keys_agree s →
  caches keys_agree (settle st unitId subUnitId key disposable s).
Proof.
  intros H. unfold settle.
  destruct (getMap unitId subUnitId s) as [map|] eqn:Hmap; [|done].
  destruct (ImageCacheMap._map map !! key) as [item|] eqn:Hitem; [|done].
  case_decide; [|done]. apply caches_putMap; [|done].
  intros k it; simpl. destruct (decide (k = key)) as [->|Hne].
  - rewrite lookup_insert_eq. intros [= <-]. simpl. by eapply (H _ _ map).
  - rewrite lookup_insert_ne by done. by eapply (H _ _ map).
Qed.

Lemma keys_agree_fire s ev : caches keys_agree s → caches keys_agree (fire s ev).
Proof.
  destruct ev; simpl; intros H.
  - by apply keys_agree_handleMatrix.
  - by apply keys_agree_watchCallback.
  - by apply keys_agree_settle.
  - by eapply caches_ext.
Qed.

Lemma play_snoc evs ev : play (evs ++ [ev]) = fire (play evs) ev.
Proof. unfold play. by rewrite foldl_app. Qed.

Lemma keys_agree_play evs : caches keys_agree (play evs).
Proof.
  induction evs as [|ev evs IH] using rev_ind.
  - intros u su map. unfold play, getMap; simpl. by rewrite lookup_empty.
  - rewrite play_snoc. by apply keys_agree_fire.
Qed.

End Service.

Section ServiceEffects.
Import SheetCellCacheManagerService.
Implicit Types (s : SheetCellCacheManagerService.t) (m map : ImageCacheMap.t).
Implicit Types (unitId subUnitId key k u su : string) (row col r c : Z).

(** *** What [handleDrawing] and [handleCell] load *)

Lemma loads_handleDrawing unitId subUnitId row col doc imageCache s k :
  loads (handleDrawing unitId subUnitId row col doc imageCache s k) = loads s
  ∨ (imageCache !! k = None
     ∧ ∃ drawing, loads (handleDrawing unitId subUnitId row col doc imageCache s k)
                  = loads s ++ [mkLoad k (images s) drawing]).
Proof.
  unfold handleDrawing.
  destruct (imageCache !! k) eqn:Hk; [by left|]. case_decide as Hproto; [by left|].
  destruct (drawings doc) as [table|]; [|by left]. simpl.
  destruct (table !! k) as [drawing|]; [|by left].
  right. eauto.
Qed.

Lemma loads_of_handleDrawing unitId subUnitId row col doc imageCache s k key :
  is_Some (imageCache !! key) →
  loads_of key (handleDrawing unitId subUnitId row col doc imageCache s k)
  = loads_of key s.
Proof.
  intros [e He]. unfold loads_of.
  destruct (loads_handleDrawing unitId subUnitId row col doc imageCache s k)
    as [->|(Hk & drawing & ->)]; [done|].
  rewrite filter_app, filter_cons; simpl.
  rewrite decide_False by congruence. by rewrite filter_nil, app_nil_r.
Qed.

Lemma loads_of_foldl_handleDrawing unitId subUnitId row col doc imageCache keys s key :
  is_Some (imageCache !! key) →
  loads_of key (foldl (handleDrawing unitId subUnitId row col doc imageCache) s keys)
  = loads_of key s.
Proof.
  intros Hkey. revert s. induction keys as [|k keys IH]; intros s; simpl; [done|].
  by rewrite IH, loads_of_handleDrawing.
Qed.

Lemma foldl_handleDrawing_cached unitId subUnitId row col doc imageCache keys s :
  (∀ k, k ∈ keys → is_Some (imageCache !! k)) →
  foldl (handleDrawing unitId subUnitId row col doc imageCache) s keys = s.
Proof.
  revert s. induction keys as [|k keys IH]; intros s Hall; simpl; [done|].
  assert (handleDrawing unitId subUnitId row col doc imageCache s k = s) as ->.
  { unfold handleDrawing. destruct (Hall k) as [e ->]; [by left|done]. }
  apply IH. intros k' Hk'. apply Hall. by right.
Qed.

Lemma ensureMap_present unitId subUnitId map s :
  getMap unitId subUnitId s = Some map → (_ensureMap unitId subUnitId s).2 = s.
Proof. intros H. unfold _ensureMap. by rewrite H. Qed.

(** *** The collection handed to [disposeWithMe] *)

Lemma collection_handleDrawing unitId subUnitId row col doc imageCache s k :
  _collection (handleDrawing unitId subUnitId row col doc imageCache s k)
  = _collection s.
Proof.
  unfold handleDrawing. destruct (imageCache !! k); [done|].
  case_decide as Hproto; [done|]. by destruct (drawings doc).
Qed.

Lemma collection_handleCell unitId subUnitId s entry :
  _collection (handleCell unitId subUnitId s entry) = _collection s.
Proof.
  destruct entry as [[row col] cell]. unfold handleCell.
  destruct (cell ≫= p) as [doc|]; [|done].
  destruct (drawingsOrder doc) as [[|key order]|]; try done.
  generalize (ImageCacheMap.getByPosition row col
                (default ImageCacheMap.new (getMap unitId subUnitId s))).
  intros imageCache. generalize (key :: order). intros keys.
  revert s. induction keys as [|k keys IH]; intros s; simpl; [done|].
  by rewrite IH, collection_handleDrawing.
Qed.

Lemma collection_handleMatrix unitId subUnitId matrix s :
  _collection (_handleMatrix unitId subUnitId matrix s) = _collection s.
Proof.
  unfold _handleMatrix.
  assert (_collection (_ensureMap unitId subUnitId s).2 = _collection s) as <-.
  { unfold _ensureMap. by destruct (getMap unitId subUnitId s). }
  generalize (_ensureMap unitId subUnitId s).2. clear s.
  induction matrix as [|entry matrix IH]; intros s; simpl; [done|].
  by rewrite IH, collection_handleCell.
Qed.

Lemma own_collection_fire s ev : own_collection s → own_collection (fire s ev).
Proof.
  intros H h. destruct ev as [u su matrix|u su key after|st u su key d|]; simpl.
  - rewrite collection_handleMatrix. apply H.
  - unfold watchCallback. destruct (getMap u su s); [|apply H].
    destruct after; apply H.
  - unfold settle. destruct (getMap u su s) as [map|]; [|apply H].
    destruct (ImageCacheMap._map map !! key); [|apply H].
    case_decide; apply H.
  - apply not_elem_of_nil.
Qed.

Lemma own_collection_play evs : own_collection (play evs).
Proof.
  induction evs as [|ev evs IH] using rev_ind.
  - intros h. unfold play; simpl. rewrite !elem_of_cons. 
    intros [?|[?|[?|?%elem_of_nil]]]; done.
  - rewrite play_snoc. by apply own_collection_fire.
Qed.

Lemma disposal_count_app d (log1 log2 : list Disposer) :
  disposal_count d (log1 ++ log2)
  = (disposal_count d log1 + disposal_count d log2)%nat.
Proof. unfold disposal_count. by rewrite filter_app, length_app. Qed.

Lemma disposal_count_0 d (log : list Disposer) :
  d ∉ log → disposal_count d log = 0%nat.
Proof.
  unfold disposal_count. induction log as [|x log IH]; [done|].
  intros Hd. rewrite filter_cons. case_decide as Heq.
  - subst x. destruct Hd. by left.
  - apply IH. intros Hin. apply Hd. by right.
Qed.

End ServiceEffects.

Section CacheFacts.
Implicit Types (m : ImageCacheMap.t) (key k : string) (row col r c : Z).

Lemma delete_present key m item :
  ImageCacheMap._map m !! key = Some item →
  (ImageCacheMap.delete key m).1 = [IImageCache.disposable item].
Proof.
  intros Hk. unfold ImageCacheMap.delete; simpl. rewrite evict_log; simpl.
  by rewrite map_update, Hk, lookup_insert_eq.
Qed.

Lemma delete_getByKey key m :
  ImageCacheMap.getByKey key (ImageCacheMap.delete key m).2 = None.
Proof.
  unfold ImageCacheMap.getByKey, ImageCacheMap.delete; simpl.
  by rewrite evict_map, lookup_delete_eq.
Qed.

Lemma absent_key_not_in_records m key row col :
  keys_agree m → ImageCacheMap._map m !! key = None →
  ImageCacheMap.getByPosition row col m !! key = None.
Proof.
  intros Hkeys Hk. apply eq_None_not_Some.
  intros [e [Hkey (k' & _ & Hk')]%getByPosition_Some].
  rewrite (Hkeys _ _ Hk') in Hkey. subst k'. congruence.
Qed.

Lemma update_getByKey key row col m item :
  ImageCacheMap._map m !! key = Some item →
  ImageCacheMap.getByKey key (ImageCacheMap.update key row col m)
  = Some (IImageCache.move item row col).
Proof.
  intros Hk. unfold ImageCacheMap.getByKey.
  by rewrite map_update, Hk, lookup_insert_eq.
Qed.

End CacheFacts.

Section Getters.
Import SheetCellCacheManagerService.

Lemma getImageElementByKey_getMap unitId subUnitId key s map :
  getMap unitId subUnitId s = Some map →
  getImageElementByKey unitId subUnitId key s
  = IImageCache.image <$> ImageCacheMap.getByKey key map.
Proof. intros H. unfold getImageElementByKey. by rewrite H. Qed.

Lemma getImageCache_getMap unitId subUnitId row col s map :
  getMap unitId subUnitId s = Some map →
  getImageCache unitId subUnitId row col s
  = Some (ImageCacheMap.getByPosition row col map).
Proof. intros H. unfold getImageCache. by rewrite H. Qed.

Lemma getImageElementByPosition_getMap unitId subUnitId row col s map :
  getMap unitId subUnitId s = Some map →
  getImageElementByPosition unitId subUnitId row col s
  = Some (ImageCacheMap.getImageCahce row col map).
Proof. intros H. unfold getImageElementByPosition. by rewrite H. Qed.

End Getters.

(** * The claims about disposables, watches and loading *)

(** C2, amended.  Along every sequence of cache operations in which each
    created entry carries a disposable of its own: no disposable is released
    twice; the disposable of an entry that is still cached has not been
    released; and when [delete] or [deleteByPosition] removes an entry, its
    disposable has been released exactly once.  Tearing down the service
    releases no range watch and leaves the caches as they are, so an entry
    still cached at teardown is never disposed. *)
Theorem disposers_released_at_most_once (ops : list Op) :
  NoDup (created ops) →
  let s := run ops in
  (∀ d, (dispose_count d (disposed s) ≤ 1)%nat)
  ∧ (∀ k item, ImageCacheMap.getByKey k (cache s) = Some item →
       dispose_count (IImageCache.disposable item) (disposed s) = 0%nat)
  ∧ (∀ op k item, removal op →
       ImageCacheMap.getByKey k (cache s) = Some item →
       ImageCacheMap.getByKey k (cache (step s op)) = None →
       dispose_count (IImageCache.disposable item) (disposed (step s op)) = 1%nat)
  ∧ (∀ evs handle,
       disposal_count (WatchRange handle)
         (SheetCellCacheManagerService.disposals
            (SheetCellCacheManagerService.dispose (play evs)))
       = disposal_count (WatchRange handle)
           (SheetCellCacheManagerService.disposals (play evs))
       ∧ SheetCellCacheManagerService._imageMaps
           (SheetCellCacheManagerService.dispose (play evs))
         = SheetCellCacheManagerService._imageMaps (play evs)).
Proof.
  intros Hnd s. destruct (disposers_run ops Hnd) as (Hok & _ & _).
  fold s in Hok. destruct Hok as (Hlog & Hlive & Hinj).
  split; [|split; [|split]].
  - intros d. by apply dispose_count_NoDup.
  - intros k item Hk. apply dispose_count_0. by eapply Hlive.
  - intros op k item Hop Hk Hgone.
    assert (disposers_ok (disposed s) (ImageCacheMap._map (cache s))) as Hok by done.
    unfold ImageCacheMap.getByKey in *.
    destruct op as [| |key|row col]; try done; simpl in *.
    + apply dispose_count_1.
      * by apply (disposers_ok_delete _ key) in Hok as [? _].
      * apply elem_of_app. right. by apply (delete_releases key _ k).
    + apply dispose_count_1.
      * by apply (disposers_ok_deleteByPosition _ row col) in Hok as [? _].
      * apply elem_of_app. right. by apply (deleteByPosition_releases row col _ k).
  - intros evs handle. split; [|done]. simpl.
    rewrite disposal_count_app.
    rewrite (disposal_count_0 _ (SheetCellCacheManagerService._collection (play evs)));
      [lia|].
    apply own_collection_play.
Qed.

Lemma disposers_released_at_most_once_witness :
  dispose_count 0
    (disposed (step (run [OpSet "img1" (IImageCache.mk 0 0 2 3 "img1" loading)])
                    (OpDelete "img1"))) = 1%nat.
Proof.
  destruct (disposers_released_at_most_once
              [OpSet "img1" (IImageCache.mk 0 0 2 3 "img1" loading)])
    as (_ & _ & H & _).
  - vm_compute. repeat constructor. by intros ?%elem_of_nil.
  - apply (H (OpDelete "img1") "img1" (IImageCache.mk 0 0 2 3 "img1" loading)).
    + exact I.
    + vm_compute. reflexivity.
    + vm_compute. reflexivity.
Defined.

(** C2 as stated fails: an entry created by [_handleMatrix] and still cached
    when the service is torn down keeps its range watch; [dispose()] was
    never called on it. *)
Lemma entry_never_disposed_at_teardown :
  let cell := Some (mkCellData (Some (mkDocumentData
                (Some {["img1" := mkImageData "https://example.com/a.png" URL]})
                (Some ["img1"])))) in
  let s := play [EvHandleMatrix "unit" "sheet" [(2, 3, cell)]; EvDispose] in
  (SheetCellCacheManagerService.getMap "unit" "sheet" s
     ≫= ImageCacheMap.getByKey "img1")
  = Some (IImageCache.mk 0 0 2 3 "img1" loading)
  ∧ disposal_count (WatchRange 0) (SheetCellCacheManagerService.disposals s) = 0%nat.
Proof. vm_compute. done. Qed.



(** C6, amended.  Loading is skipped per position: when the cache of the
    sub unit already returns an entry for [key] at [(row, col)], handing
    that cell to [_handleMatrix] again requests no load for [key]; and when
    every drawing the cell lists is cached there, nothing changes at all. *)
Theorem reobserving_cached_key_skips_load (s : SheetCellCacheManagerService.t)
    (unitId subUnitId : string) (row col : Z) (cell : option ICellData)
    (record : gmap string IImageCache) (key : string) :
  SheetCellCacheManagerService.getImageCache unitId subUnitId row col s = Some record →
  is_Some (record !! key) →
  let s' := SheetCellCacheManagerService._handleMatrix unitId subUnitId
              [(row, col, cell)] s in
  loads_of key s' = loads_of key s
  ∧ (∀ doc order,
       cell ≫= p = Some doc → drawingsOrder doc = Some order → order ≠ [] →
       (∀ k, k ∈ order → is_Some (record !! k)) →
       s' = s).
Proof.
  intros Hrecord Hkey s'.
  unfold SheetCellCacheManagerService.getImageCache in Hrecord.
  destruct (SheetCellCacheManagerService.getMap unitId subUnitId s) as [map|] eqn:Hmap;
    [|done].
  injection Hrecord as <-.
  assert (s' = SheetCellCacheManagerService.handleCell unitId subUnitId s
                 (row, col, cell)) as ->.
  { unfold s', SheetCellCacheManagerService._handleMatrix.
    by rewrite (ensureMap_present _ _ map). }
  unfold SheetCellCacheManagerService.handleCell. rewrite Hmap. simpl default.
  split.
  - destruct (cell ≫= p) as [doc|]; [|done].
    destruct (drawingsOrder doc) as [[|k order]|]; [done| |done].
    by apply loads_of_foldl_handleDrawing.
  - intros doc order -> -> Hne Hall.
    destruct order as [|k order]; [done|].
    by apply foldl_handleDrawing_cached.
Qed.

Lemma reobserving_cached_key_skips_load_witness :
  let cell := Some (mkCellData (Some (mkDocumentData
                (Some {["img1" := mkImageData "https://example.com/a.png" URL]})
                (Some ["img1"])))) in
  let s := play [EvHandleMatrix "unit" "sheet" [(2, 3, cell)]] in
  loads_of "img1"
    (SheetCellCacheManagerService._handleMatrix "unit" "sheet" [(2, 3, cell)] s)
  = loads_of "img1" s.
Proof.
  intros cell s.
  apply (reobserving_cached_key_skips_load s "unit" "sheet" 2 3 cell
           {["img1" := IImageCache.mk 0 0 2 3 "img1" loading]} "img1").
  - vm_compute. reflexivity.
  - vm_compute. eauto.
Defined.

(** C6 as stated fails: the same drawing key met in a second cell is loaded
    a second time while the entry made for the first cell is still
    loading. *)
Lemma second_load_while_loading :
  let cell := Some (mkCellData (Some (mkDocumentData
                (Some {["img1" := mkImageData "https://example.com/a.png" URL]})
                (Some ["img1"])))) in
  let s1 := play [EvHandleMatrix "unit" "sheet" [(2, 3, cell)]] in
  let s2 := fire s1 (EvHandleMatrix "unit" "sheet" [(4, 3, cell)]) in
  (IImageCache.status <$>
     (SheetCellCacheManagerService.getMap "unit" "sheet" s1
        ≫= ImageCacheMap.getByKey "img1")) = Some loading
  ∧ length (loads_of "img1" s1) = 1%nat
  ∧ length (loads_of "img1" s2) = 2%nat.
Proof. vm_compute. done. Qed.

(** C9.  Lookups are total functions of the state and read it only.
    [getByKey] answers with the entry filed under the key, or with nothing;
    [getByPosition] answers with a record, empty when no bucket exists at
    the coordinates or when none of its keys has an entry; the service's
    lookups answer with nothing for an unknown unit or sub unit and
    otherwise pass on what the cache of the sub unit answers. *)
Theorem lookups_total (s : SheetCellCacheManagerService.t) (m : ImageCacheMap.t)
    (unitId subUnitId key : string) (row col : Z) :
  (ImageCacheMap.getByKey key m = ImageCacheMap._map m !! key)
  ∧ (ImageCacheMap.bucket m row col = None →
       ImageCacheMap.getByPosition row col m = ∅)
  ∧ (ImageCacheMap._map m = ∅ → ImageCacheMap.getByPosition row col m = ∅)
  ∧ (∀ k e, ImageCacheMap.getByPosition row col m !! k = Some e →
       ∃ k', ImageCacheMap.getByKey k' m = Some e)
  ∧ (SheetCellCacheManagerService.getMap unitId subUnitId s = None →
       SheetCellCacheManagerService.getImageCache unitId subUnitId row col s = None
       ∧ SheetCellCacheManagerService.getImageElementByPosition
           unitId subUnitId row col s = None
       ∧ SheetCellCacheManagerService.getImageElementByKey unitId subUnitId key s
         = None)
  ∧ (∀ map, SheetCellCacheManagerService.getMap unitId subUnitId s = Some map →
       SheetCellCacheManagerService.getImageCache unitId subUnitId row col s
       = Some (ImageCacheMap.getByPosition row col map)
       ∧ SheetCellCacheManagerService.getImageElementByPosition
           unitId subUnitId row col s
         = Some (ImageCacheMap.getImageCahce row col map)
       ∧ SheetCellCacheManagerService.getImageElementByKey unitId subUnitId key s
         = IImageCache.image <$> ImageCacheMap.getByKey key map).
Proof.
  split; [done|]. split; [|split; [|split; [|split]]].
  - intros Hb. unfold ImageCacheMap.getByPosition.
    by rewrite getByPosition_bucket, Hb.
  - intros Hempty. unfold ImageCacheMap.getByPosition.
    rewrite getByPosition_bucket, Hempty.
    induction (default [] (ImageCacheMap.bucket m row col)) as [|k l IH]; [done|].
    simpl. by rewrite lookup_empty.
  - intros k e (_ & k' & _ & Hk')%getByPosition_Some. by exists k'.
  - intros Hmap.
    unfold SheetCellCacheManagerService.getImageCache,
      SheetCellCacheManagerService.getImageElementByPosition,
      SheetCellCacheManagerService.getImageElementByKey.
    by rewrite Hmap.
  - intros map Hmap.
    by rewrite (getImageCache_getMap _ _ _ _ _ _ Hmap),
      (getImageElementByPosition_getMap _ _ _ _ _ _ Hmap),
      (getImageElementByKey_getMap _ _ _ _ _ Hmap).
Qed.

(** * Properties of [AutoWidthController] *)

Section ColumnWidths.
Implicit Types (widths w : gmap Z Z) (l : list IColAutoWidthInfo) (c : Z).

Lemma setColWidth_lookup w info c :
  setColWidth w info !! c
  = if decide (info_col info = c) then info_width info else w !! c.
Proof.
  unfold setColWidth. destruct (info_width info) as [x|]; case_decide as Heq.
  - subst c. by rewrite lookup_insert_eq.
  - by rewrite lookup_insert_ne.
  - subst c. by rewrite lookup_delete_eq.
  - by rewrite lookup_delete_ne.
Qed.

(** Columns that a list does not mention keep their width. *)
Lemma foldl_setColWidth_other l w c :
  c ∉ info_col <$> l → foldl setColWidth w l !! c = w !! c.
Proof.
  revert w. induction l as [|info l IH]; intros w Hc; simpl; [done|].
  rewrite fmap_cons, not_elem_of_cons in Hc. destruct Hc as [Hne Hc].
  rewrite IH by done. rewrite setColWidth_lookup. by rewrite decide_False.
Qed.

(** Replaying widths that were all read from [w0] gives, on every column
    mentioned, the width [w0] had. *)
Lemma foldl_setColWidth_snapshot l w w0 c :
  c ∈ info_col <$> l →
  foldl setColWidth w ((λ info, mkColInfo (info_col info) (w0 !! info_col info)) <$> l)
    !! c = w0 !! c.
Proof.
  revert w. induction l as [|info l IH]; intros w Hc; simpl.
  - by apply elem_of_nil in Hc.
  - destruct (decide (c ∈ info_col <$> l)) as [Hin|Hout]; [by apply IH|].
    rewrite fmap_cons, elem_of_cons in Hc. destruct Hc as [->|Hc]; [|done].
    rewrite foldl_setColWidth_other.
    + rewrite setColWidth_lookup; simpl. by rewrite decide_True.
    + by rewrite <- list_fmap_compose.
Qed.

Lemma factory_then_handler params worksheet :
  SetWorksheetColAutoWidthMutation_handler
    (SetWorksheetColAutoWidthMutationFactory params worksheet)
    (SetWorksheetColAutoWidthMutation_handler params worksheet)
  = worksheet.
Proof.
  destruct worksheet as [id w0]. unfold SetWorksheetColAutoWidthMutation_handler.
  simpl. f_equal. apply map_eq. intros c.
  destruct (decide (c ∈ info_col <$> colsAutoWidthInfo params)) as [Hin|Hout].
  - by apply foldl_setColWidth_snapshot.
  - rewrite foldl_setColWidth_other by (by rewrite <- list_fmap_compose).
    by apply foldl_setColWidth_other.
Qed.

End ColumnWidths.

Section Synthesis.
Variable SetStyleCommand_id : string.
Variable SetWorksheetColIsAutoWidthCommand_id : string.
Variable SetWorksheetColAutoWidthMutation_id : string.
Variable Skeleton : Type.
Variable calculateAutoWidthInRange : Skeleton → list IRange → list IColAutoWidthInfo.

Local Abbreviation Services := (AutoWidthController.Services Skeleton).
Local Abbreviation getUndoRedoParamsOfColWidth :=
  (AutoWidthController.getUndoRedoParamsOfColWidth
     SetWorksheetColAutoWidthMutation_id Skeleton calculateAutoWidthInRange).
Local Abbreviation getMutations_setStyle :=
  (AutoWidthController.getMutations_setStyle
     SetStyleCommand_id SetWorksheetColAutoWidthMutation_id Skeleton
     calculateAutoWidthInRange).
Local Abbreviation getMutations_colIsAutoWidth :=
  (AutoWidthController.getMutations_colIsAutoWidth
     SetWorksheetColIsAutoWidthCommand_id SetWorksheetColAutoWidthMutation_id
     Skeleton calculateAutoWidthInRange).
Local Abbreviation applyMutations :=
  (AutoWidthController.applyMutations SetWorksheetColAutoWidthMutation_id).
Local Abbreviation resolved_setStyle :=
  (AutoWidthController.resolved_setStyle SetStyleCommand_id Skeleton).
Local Abbreviation noop := AutoWidthController.noop.

(** The result of [getUndoRedoParamsOfColWidth], case by case. *)
Lemma getUndoRedoParamsOfColWidth_cases (ranges : list IRange) (env : Services)
    (result : IUndoRedo) :
  getUndoRedoParamsOfColWidth ranges env = Ok result →
  ∃ workbook getCurrent,
    AutoWidthController.getCurrentUnitForType Skeleton env = Some workbook
    ∧ AutoWidthController.getRenderById Skeleton env (workbook_unitId workbook)
      = Some getCurrent
    ∧ ((result = noop ∧ (sheetId (activeSheet workbook) = "" ∨ getCurrent = None))
       ∨ (∃ skeleton,
            getCurrent = Some skeleton ∧ sheetId (activeSheet workbook) ≠ ""
            ∧ let redoParams :=
                mkParams (sheetId (activeSheet workbook)) (workbook_unitId workbook)
                  (calculateAutoWidthInRange skeleton ranges) in
              result
              = mkUndoRedo
                  [mkMutation SetWorksheetColAutoWidthMutation_id
                     (SetWorksheetColAutoWidthMutationFactory redoParams
                        (activeSheet workbook))]
                  [mkMutation SetWorksheetColAutoWidthMutation_id redoParams])).
Proof.
  unfold AutoWidthController.getUndoRedoParamsOfColWidth.
  destruct (AutoWidthController.getCurrentUnitForType Skeleton env) as [workbook|];
    [|done].
  destruct (AutoWidthController.getRenderById Skeleton env (workbook_unitId workbook))
    as [getCurrent|] eqn:Hrender; [|done].
  intros H. exists workbook, getCurrent. split; [done|]. split; [done|].
  case_decide as Hid.
  { left. injection H as <-. split; [done|by left]. }
  destruct getCurrent as [skeleton|].
  - right. exists skeleton. injection H as <-. done.
  - left. injection H as <-. split; [done|by right].
Qed.

Lemma applyMutations_pair (undoParams redoParams : ISetWorksheetColAutoWidthMutationParams)
    (worksheet : Worksheet) :
  applyMutations [mkMutation SetWorksheetColAutoWidthMutation_id undoParams]
    (applyMutations [mkMutation SetWorksheetColAutoWidthMutation_id redoParams]
       worksheet)
  = SetWorksheetColAutoWidthMutation_handler undoParams
      (SetWorksheetColAutoWidthMutation_handler redoParams worksheet).
Proof.
  unfold AutoWidthController.applyMutations, AutoWidthController.applyMutation.
  simpl. by rewrite !decide_True.
Qed.

(** Both interceptors answer with the no-op pair or with what
    [getUndoRedoParamsOfColWidth] answers. *)
Lemma getMutations_cases (command : SetStyleCommandInfo) (cw : ColIsAutoWidthCommand)
    (env : Services) (result : IUndoRedo) :
  getMutations_setStyle command env = Ok result
  ∨ getMutations_colIsAutoWidth cw env = Ok result →
  result = noop ∨ ∃ ranges, getUndoRedoParamsOfColWidth ranges env = Ok result.
Proof.
  unfold AutoWidthController.getMutations_setStyle,
    AutoWidthController.getMutations_colIsAutoWidth.
  intros [H|H].
  - case_decide; [left; congruence|].
    destruct (negb _); [left; congruence|].
    destruct (AutoWidthController.getCurrentSelections Skeleton env)
      as [[|range selections]|]; [left; congruence| |left; congruence].
    right. eauto.
  - case_decide; [left; congruence|]. right. eauto.
Qed.


(** C4, amended.  Output shape of the set-style interceptor and of the
    column-auto-width interceptor.  The result is the no-op pair when the
    command id does not match, when the style is not layout-affecting or
    no range is selected, and also when the active sheet has no id or no
    current skeleton.  Otherwise, a current workbook and its renderer
    being there, it holds exactly one undo and one redo mutation: the redo
    carries the whole list the layout engine computes for the resolved
    ranges, the undo the list the factory derives from it. *)
Theorem synthesizer_output_shape (command : SetStyleCommandInfo)
    (cw : ColIsAutoWidthCommand) (env : Services) (workbook : Workbook)
    (getCurrent : option Skeleton) :
  AutoWidthController.getCurrentUnitForType Skeleton env = Some workbook →
  AutoWidthController.getRenderById Skeleton env (workbook_unitId workbook)
  = Some getCurrent →
  let shaped (ranges : list IRange) (result : Result IUndoRedo) :=
    match getCurrent with
    | Some skeleton =>
        if decide (sheetId (activeSheet workbook) = "") then result = Ok noop
        else
          ∃ undo redo,
            result = Ok (mkUndoRedo [undo] [redo])
            ∧ mutation_id undo = SetWorksheetColAutoWidthMutation_id
            ∧ mutation_id redo = SetWorksheetColAutoWidthMutation_id
            ∧ colsAutoWidthInfo (mutation_params redo)
              = calculateAutoWidthInRange skeleton ranges
            ∧ mutation_params undo
              = SetWorksheetColAutoWidthMutationFactory (mutation_params redo)
                  (activeSheet workbook)
    | None => result = Ok noop
    end in
  (resolved_setStyle command env = [] → getMutations_setStyle command env = Ok noop)
  ∧ (resolved_setStyle command env ≠ [] →
       shaped (resolved_setStyle command env) (getMutations_setStyle command env))
  ∧ (cw_id cw ≠ SetWorksheetColIsAutoWidthCommand_id →
       getMutations_colIsAutoWidth cw env = Ok noop)
  ∧ (cw_id cw = SetWorksheetColIsAutoWidthCommand_id →
       shaped (cw_ranges cw) (getMutations_colIsAutoWidth cw env)).
Proof.
  intros Hworkbook Hrender shaped.
  assert (∀ ranges, shaped ranges (getUndoRedoParamsOfColWidth ranges env)) as Hshaped.
  { intros ranges. unfold shaped, AutoWidthController.getUndoRedoParamsOfColWidth.
    rewrite Hworkbook, Hrender.
    destruct getCurrent as [skeleton|]; case_decide; try done.
    eexists _, _. split; [done|]. done. }
  unfold AutoWidthController.resolved_setStyle,
    AutoWidthController.getMutations_setStyle,
    AutoWidthController.getMutations_colIsAutoWidth.
  split; [|split; [|split]].
  - case_decide; [done|]. destruct (negb _); [done|].
    by destruct (AutoWidthController.getCurrentSelections Skeleton env) as [[|? ?]|].
  - case_decide; [done|]. destruct (negb _); [done|].
    destruct (AutoWidthController.getCurrentSelections Skeleton env) as [[|? ?]|];
      [done| |done].
    intros _. apply Hshaped.
  - intros Hne. by rewrite decide_True.
  - intros Heq. rewrite decide_False by (by intros ?). apply Hshaped.
Qed.

End Synthesis.



Lemma synthesizer_output_shape_witness :
  let worksheet := mkWorksheet "sheet1" {[ 3 := 72 ]} in
  let env := AutoWidthController.mkServices unit
               (Some (mkWorkbook "unit" worksheet)) (λ _, Some (Some tt))
               (Some [mkRange 0 9 3 4]) in
  let calc := λ (_ : unit) (ranges : list IRange),
                (λ range, mkColInfo (startColumn range) (Some 120)) <$> ranges in
  AutoWidthController.getMutations_colIsAutoWidth
    "sheet.command.set-col-is-auto-width"
    "sheet.mutation.set-worksheet-col-auto-width" unit calc
    (mkColIsAutoWidthCommand "sheet.command.set-style" [mkRange 0 9 3 4]) env
  = Ok AutoWidthController.noop.
Proof.
  intros worksheet env calc.
  destruct (synthesizer_output_shape "sheet.command.set-style"
              "sheet.command.set-col-is-auto-width"
              "sheet.mutation.set-worksheet-col-auto-width" unit calc
              (mkSetStyleCommand "sheet.command.set-style" (Some "fs"))
              (mkColIsAutoWidthCommand "sheet.command.set-style" [mkRange 0 9 3 4])
              env (mkWorkbook "unit" worksheet) (Some tt))
    as (_ & _ & H & _).
  - reflexivity.
  - reflexivity.
  - apply H. vm_compute. discriminate.
Defined.

(** C4 as stated fails: a layout-affecting style change with a range
    selected resolves ranges, and the result is still the no-op pair,
    because the renderer has no current skeleton. *)
Lemma ranges_resolve_but_no_skeleton :
  let env := AutoWidthController.mkServices unit
               (Some (mkWorkbook "unit" (mkWorksheet "sheet1" ∅)))
               (λ _, Some None) (Some [mkRange 0 9 3 4]) in
  let command := mkSetStyleCommand "sheet.command.set-style" (Some "fs") in
  AutoWidthController.resolved_setStyle "sheet.command.set-style" unit command env
  = [mkRange 0 9 3 4]
  ∧ AutoWidthController.getMutations_setStyle "sheet.command.set-style"
      "sheet.mutation.set-worksheet-col-auto-width" unit (λ _ _, []) command env
    = Ok (mkUndoRedo [] []).
Proof. vm_compute. done. Qed.


(** * Further properties of [ImageCacheMap] *)

Section BucketInvariant.
(** A property of buckets that survives removing a key, and adding one at
    coordinates other than [-1], holds of every bucket of every cache
    reached from the empty one. *)
Variable P : Z → Z → list string → Prop.
Hypothesis P_delete : ∀ row col key colMap,
  P row col colMap → P row col (Set_delete key colMap).
Hypothesis P_add : ∀ row col key colMap,
  row ≠ -1 → col ≠ -1 → P row col colMap → P row col (Set_add key colMap).
Hypothesis P_new : ∀ row col, row ≠ -1 → col ≠ -1 → P row col [].

Lemma buckets_update key row col m :
  buckets P m → buckets P (ImageCacheMap.update key row col m).
Proof.
  intros H.
  assert (buckets P (ImageCacheMap.update_item key row col m)) as H1.
  { intros r c b. rewrite bucket_update_item. case_decide; [|apply H].
    destruct (ImageCacheMap.bucket m r c) as [b0|] eqn:Hb; [|done].
    intros [= <-]. by apply P_delete, H. }
  unfold ImageCacheMap.update.
  destruct (decide (row = -1 ∨ col = -1)) as [Hd|Hd].
  { by rewrite update_index_detached. }
  intros r c b. rewrite bucket_update_index by tauto.
  case_decide as Heq; [|apply H1]. destruct Heq as [-> ->].
  intros [= <-]. apply P_add; [tauto..|].
  destruct (ImageCacheMap.bucket _ row col) as [b0|] eqn:Hb; simpl.
  - by apply H1.
  - apply P_new; tauto.
Qed.

Lemma buckets_set key imageCache m :
  buckets P m → buckets P (ImageCacheMap.set key imageCache m).
Proof. intros H. by apply buckets_update. Qed.

Lemma buckets_delete key m :
  buckets P m → buckets P (ImageCacheMap.delete key m).2.
Proof.
  intros H r c b Hb. by apply (buckets_update key (-1) (-1) m H r c b).
Qed.

Lemma buckets_deleteByPosition row col m :
  buckets P m → buckets P (ImageCacheMap.deleteByPosition row col m).2.
Proof.
  intros H. unfold ImageCacheMap.deleteByPosition.
  destruct (ImageCacheMap._poistionMap m !! row) as [rowMap|] eqn:Hrow; [|done].
  destruct (rowMap !! col) as [colMap|] eqn:Hcol; [|done].
  intros r c b; simpl. destruct m as [mp pm]; simpl in *.
  rewrite (bucket_drop pm rowMap) by done.
  case_decide; [done|]. apply H.
Qed.

Lemma buckets_step s op : buckets P (cache s) → buckets P (cache (step s op)).
Proof.
  destruct op; simpl; intros H.
  - by apply buckets_set.
  - by apply buckets_update.
  - by apply buckets_delete.
  - by apply buckets_deleteByPosition.
Qed.

Lemma buckets_new : buckets P ImageCacheMap.new.
Proof. intros r c b. unfold ImageCacheMap.bucket; simpl. by rewrite lookup_empty. Qed.

Lemma buckets_run ops : buckets P (cache (run ops)).
Proof.
  induction ops as [|op ops IH] using rev_ind; [apply buckets_new|].
  rewrite run_snoc. by apply buckets_step.
Qed.

End BucketInvariant.

Section MoreCacheFacts.
Implicit Types (m : ImageCacheMap.t) (key k : string) (row col r c : Z).

Lemma NoDup_Set_add key (s : list string) : NoDup s → NoDup (Set_add key s).
Proof.
  intros H. unfold Set_add. case_decide as Hin; [done|].
  apply NoDup_app. split; [done|]. split; [|apply NoDup_singleton].
  by intros x Hx ->%list_elem_of_singleton.
Qed.

Lemma NoDup_Set_delete key (s : list string) : NoDup s → NoDup (Set_delete key s).
Proof. apply NoDup_filter. Qed.

(** A bucket lists every key once, as a [Set] does. *)
Lemma buckets_NoDup_run ops : buckets (λ _ _ colMap, NoDup colMap) (cache (run ops)).
Proof.
  apply buckets_run.
  - intros. by apply NoDup_Set_delete.
  - intros. by apply NoDup_Set_add.
  - intros. constructor.
Qed.

Lemma buckets_positioned_run ops :
  buckets (λ row col _, row ≠ -1 ∧ col ≠ -1) (cache (run ops)).
Proof. apply buckets_run; tauto. Qed.

Lemma move_same (item : IImageCache) :
  IImageCache.move item (IImageCache.row item) (IImageCache.col item) = item.
Proof. by destruct item. Qed.

Lemma foldl_evict_log_NoDup (l : list string) (acc : list nat * gmap string IImageCache) :
  NoDup l →
  (foldl ImageCacheMap.evict acc l).1
  = acc.1 ++ (IImageCache.disposable <$> omap (λ key, acc.2 !! key) l).
Proof.
  revert acc. induction l as [|key l IH]; intros acc Hnd; simpl.
  { by rewrite app_nil_r. }
  apply NoDup_cons in Hnd as [Hkey Hnd].
  rewrite IH by done. rewrite evict_log, evict_map.
  assert (omap (λ k, base.delete key acc.2 !! k) l = omap (λ k, acc.2 !! k) l) as ->.
  { apply list_omap_ext. apply Forall2_same_length_lookup. split; [done|].
    intros i x y Hx Hy. assert (x = y) as <- by congruence.
    rewrite lookup_delete_ne; [done|]. intros ->.
    apply Hkey. by eapply list_elem_of_lookup_2. }
  destruct (acc.2 !! key) as [item|]; simpl.
  - by rewrite <- app_assoc.
  - by rewrite app_nil_r.
Qed.

End MoreCacheFacts.

Lemma getByKey_set (m : ImageCacheMap.t) (key k : string) (imageCache : IImageCache) :
  ImageCacheMap.getByKey k (ImageCacheMap.set key imageCache m)
  = if decide (k = key) then Some imageCache else ImageCacheMap.getByKey k m.
Proof.
  unfold ImageCacheMap.getByKey, ImageCacheMap.set.
  rewrite map_update; simpl. rewrite lookup_insert_eq. case_decide as Heq.
  - subst k. rewrite lookup_insert_eq. by rewrite move_same.
  - by rewrite !lookup_insert_ne.
Qed.

Lemma delete_absent (m : ImageCacheMap.t) (key : string) :
  ImageCacheMap._map m !! key = None → ImageCacheMap.delete key m = ([], m).
Proof.
  intros Hkey. unfold ImageCacheMap.delete, ImageCacheMap.update.
  assert (ImageCacheMap.update_item key (-1) (-1) m = m) as ->.
  { unfold ImageCacheMap.update_item. by rewrite Hkey. }
  rewrite update_index_detached by (by left).
  unfold ImageCacheMap.evict; simpl. rewrite Hkey; simpl.
  rewrite delete_id by done. by destruct m.
Qed.

Lemma deleteByPosition_bucket (m : ImageCacheMap.t) (row col : Z) :
  ImageCacheMap.bucket (ImageCacheMap.deleteByPosition row col m).2 row col = None.
Proof.
  unfold ImageCacheMap.deleteByPosition.
  destruct (ImageCacheMap._poistionMap m !! row) as [rowMap|] eqn:Hrow.
  - destruct (rowMap !! col) as [colMap|] eqn:Hcol; simpl.
    + destruct m as [mp pm]; simpl in *.
      rewrite (bucket_drop pm rowMap) by done. by rewrite decide_True.
    + unfold ImageCacheMap.bucket. by rewrite Hrow; simpl.
  - unfold ImageCacheMap.bucket; simpl. by rewrite Hrow.
Qed.

Lemma deleteByPosition_getByPosition (m : ImageCacheMap.t) (row col : Z) :
  ImageCacheMap._getByPosition row col (ImageCacheMap.deleteByPosition row col m).2 = [].
Proof. by rewrite getByPosition_bucket, deleteByPosition_bucket. Qed.

Lemma makeImageRecord_fmap (items : list IImageCache) :
  makeImageRecord items = IImageCache.image <$> makeRecord items.
Proof.
  unfold makeImageRecord, makeRecord.
  rewrite <- (fmap_empty IImageCache.image) at 1.
  generalize (∅ : gmap string IImageCache).
  induction items as [|item items IH]; intros acc; simpl; [done|].
  by rewrite <- IH, fmap_insert.
Qed.

(** X1.  Insert and look up: right after [set(key, imageCache)] the key
    answers with exactly that entry, and every other key answers as it did
    before. *)
Theorem set_then_getByKey (m : ImageCacheMap.t) (key : string)
    (imageCache : IImageCache) :
  ImageCacheMap.getByKey key (ImageCacheMap.set key imageCache m) = Some imageCache
  ∧ (∀ k, k ≠ key →
       ImageCacheMap.getByKey k (ImageCacheMap.set key imageCache m)
       = ImageCacheMap.getByKey k m).
Proof.
  split.
  - rewrite getByKey_set. by rewrite decide_True.
  - intros k Hne. rewrite getByKey_set. by rewrite decide_False.
Qed.

(** X2.  In a cache reached by well-keyed operations, an entry stored by
    [set] under its own key, at coordinates other than [-1], is returned by
    [getByPosition] at those coordinates. *)
Theorem set_then_getByPosition (ops : list Op) (key : string)
    (imageCache : IImageCache) :
  keyed ops →
  IImageCache.key imageCache = key →
  IImageCache.row imageCache ≠ -1 → IImageCache.col imageCache ≠ -1 →
  ImageCacheMap.getByPosition (IImageCache.row imageCache) (IImageCache.col imageCache)
    (ImageCacheMap.set key imageCache (cache (run ops))) !! key
  = Some imageCache.
Proof.
  intros Hops Hkey Hrow Hcol.
  change (ImageCacheMap.set key imageCache (cache (run ops)))
    with (cache (step (run ops) (OpSet key imageCache))).
  rewrite <- run_snoc. apply positioned_entry_found; [| |done..].
  - apply Forall_app. split; [done|]. by repeat constructor.
  - rewrite run_snoc. simpl. rewrite getByKey_set. by rewrite decide_True.
Qed.

Lemma set_then_getByPosition_witness :
  ImageCacheMap.getByPosition 2 3
    (ImageCacheMap.set "img2" (IImageCache.mk 1 1 2 3 "img2" loading)
       (cache (run [OpSet "img1" (IImageCache.mk 0 0 2 3 "img1" loading)])))
    !! "img2"
  = Some (IImageCache.mk 1 1 2 3 "img2" loading).
Proof.
  apply (set_then_getByPosition
           [OpSet "img1" (IImageCache.mk 0 0 2 3 "img1" loading)] "img2"
           (IImageCache.mk 1 1 2 3 "img2" loading)).
  - repeat constructor.
  - reflexivity.
  - simpl. lia.
  - simpl. lia.
Defined.

(** X3.  Deleting a key that has no entry changes nothing and disposes
    nothing. *)
Theorem delete_absent_key (m : ImageCacheMap.t) (key : string) :
  ImageCacheMap.getByKey key m = None →
  ImageCacheMap.delete key m = ([], m).
Proof. unfold ImageCacheMap.getByKey. intros Hkey. by apply delete_absent. Qed.

Lemma delete_absent_key_witness :
  ImageCacheMap.delete "img2"
    (cache (run [OpSet "img1" (IImageCache.mk 0 0 2 3 "img1" loading)]))
  = ([], cache (run [OpSet "img1" (IImageCache.mk 0 0 2 3 "img1" loading)])).
Proof.
  apply (delete_absent_key
           (cache (run [OpSet "img1" (IImageCache.mk 0 0 2 3 "img1" loading)]))
           "img2").
  vm_compute. reflexivity.
Defined.

(** X4.  [delete(key)] disposes the entry filed under the key, and nothing
    else; afterwards the key has no entry and every other key answers as
    before. *)
Theorem delete_only_that_key (m : ImageCacheMap.t) (key : string) :
  (ImageCacheMap.delete key m).1
  = match ImageCacheMap.getByKey key m with
    | Some item => [IImageCache.disposable item]
    | None => []
    end
  ∧ ImageCacheMap.getByKey key (ImageCacheMap.delete key m).2 = None
  ∧ (∀ k, k ≠ key →
       ImageCacheMap.getByKey k (ImageCacheMap.delete key m).2
       = ImageCacheMap.getByKey k m).
Proof.
  split; [|split].
  - unfold ImageCacheMap.getByKey.
    destruct (ImageCacheMap._map m !! key) as [item|] eqn:Hkey.
    + by apply delete_present.
    + by rewrite delete_absent.
  - apply delete_getByKey.
  - intros k Hne. unfold ImageCacheMap.getByKey, ImageCacheMap.delete; simpl.
    rewrite evict_map; simpl. rewrite lookup_delete_ne by done.
    rewrite map_update. destruct (ImageCacheMap._map m !! key); [|done].
    by rewrite lookup_insert_ne.
Qed.

(** X5.  After [deleteByPosition(row, col)] the position is empty:
    [getByPosition] and [getImageCahce] return empty records there. *)
Theorem deleteByPosition_empties_position (m : ImageCacheMap.t) (row col : Z) :
  ImageCacheMap.getByPosition row col (ImageCacheMap.deleteByPosition row col m).2 = ∅
  ∧ ImageCacheMap.getImageCahce row col (ImageCacheMap.deleteByPosition row col m).2 = ∅.
Proof.
  unfold ImageCacheMap.getByPosition, ImageCacheMap.getImageCahce.
  by rewrite deleteByPosition_getByPosition.
Qed.

(** X6.  In a reachable cache [deleteByPosition(row, col)] disposes exactly
    the entries the position lists, each once and in the order of the
    bucket; the keys of the bucket lose their entries and every other key
    keeps its own. *)
Theorem deleteByPosition_releases_listed (ops : list Op) (row col : Z) :
  let m := cache (run ops) in
  (ImageCacheMap.deleteByPosition row col m).1
  = IImageCache.disposable <$> ImageCacheMap._getByPosition row col m
  ∧ (∀ k, ImageCacheMap.getByKey k (ImageCacheMap.deleteByPosition row col m).2
          = if decide (k ∈ default [] (ImageCacheMap.bucket m row col)) then None
            else ImageCacheMap.getByKey k m).
Proof.
  intros m. pose proof (buckets_NoDup_run ops row col) as Hnd. fold m in Hnd.
  rewrite getByPosition_bucket.
  unfold ImageCacheMap.deleteByPosition, ImageCacheMap.bucket in *.
  destruct (ImageCacheMap._poistionMap m !! row) as [rowMap|]; simpl in *.
  - destruct (rowMap !! col) as [colMap|] eqn:Hcol; simpl.
    + split.
      * rewrite foldl_evict_log_NoDup; [done|]. by apply Hnd.
      * intros k. unfold ImageCacheMap.getByKey; simpl. apply foldl_evict_lookup.
    + split; [done|]. intros k.
      destruct (decide (k ∈ [])) as [H|_]; [by apply elem_of_nil in H|done].
  - split; [done|]. intros k.
    destruct (decide (k ∈ [])) as [H|_]; [by apply elem_of_nil in H|done].
Qed.

(** X7.  No bucket is ever made at a coordinate [-1]: in a reachable cache
    a position lookup with row or column [-1] returns the empty record. *)
Theorem detached_position_is_empty (ops : list Op) (row col : Z) :
  row = -1 ∨ col = -1 →
  ImageCacheMap.getByPosition row col (cache (run ops)) = ∅.
Proof.
  intros Hd. unfold ImageCacheMap.getByPosition. rewrite getByPosition_bucket.
  destruct (ImageCacheMap.bucket (cache (run ops)) row col) as [colMap|] eqn:Hb;
    [|done].
  apply buckets_positioned_run in Hb. lia.
Qed.

Lemma detached_position_is_empty_witness :
  ImageCacheMap.getByPosition (-1) 3
    (cache (run [OpSet "img1" (IImageCache.mk 0 0 2 3 "img1" loading);
                 OpUpdate "img1" (-1) 3]))
  = ∅.
Proof.
  apply (detached_position_is_empty
           [OpSet "img1" (IImageCache.mk 0 0 2 3 "img1" loading);
            OpUpdate "img1" (-1) 3] (-1) 3).
  left. reflexivity.
Defined.

(** X8.  The record of image elements of a position is the record of its
    entries with each entry replaced by its image: both lookups list the
    same keys. *)
Theorem getImageCahce_is_image_of_getByPosition (m : ImageCacheMap.t) (row col : Z) :
  ImageCacheMap.getImageCahce row col m
  = IImageCache.image <$> ImageCacheMap.getByPosition row col m.
Proof.
  unfold ImageCacheMap.getImageCahce, ImageCacheMap.getByPosition.
  apply makeImageRecord_fmap.
Qed.

(** * Further properties of [SheetCellCacheManagerService] *)

Section Handles.
Import SheetCellCacheManagerService.
Implicit Types (s : SheetCellCacheManagerService.t) (m map : ImageCacheMap.t).
Implicit Types (unitId subUnitId key k u su : string) (row col r c : Z).

Lemma cache_of_putMap u su unitId subUnitId m s :
  cache_of u su (putMap unitId subUnitId m s)
  = if decide (u = unitId ∧ su = subUnitId) then m else cache_of u su s.
Proof. unfold cache_of. rewrite getMap_putMap. by case_decide. Qed.

Lemma cache_of_ext u su s s' :
  _imageMaps s' = _imageMaps s → cache_of u su s' = cache_of u su s.
Proof. intros H. unfold cache_of, getMap. by rewrite H. Qed.

Lemma released_app (log1 log2 : list Disposer) :
  omap (λ d, match d with WatchRange handle => Some handle | _ => None end) (log1 ++ log2)
  = omap (λ d, match d with WatchRange handle => Some handle | _ => None end) log1
    ++ omap (λ d, match d with WatchRange handle => Some handle | _ => None end) log2.
Proof. apply omap_app. Qed.

Lemma released_watches (ds : list nat) :
  omap (λ d, match d with WatchRange handle => Some handle | _ => None end)
       (WatchRange <$> ds) = ds.
Proof. induction ds as [|d ds IH]; [done|]. simpl. f_equal. exact IH. Qed.

Lemma released_own (log : list Disposer) :
  (∀ handle, WatchRange handle ∉ log) →
  omap (λ d, match d with WatchRange handle => Some handle | _ => None end) log = [].
Proof.
  induction log as [|d log IH]; intros H; [done|]. simpl.
  destruct d as [handle| | |].
  - destruct (H handle). by left.
  - apply IH. intros h Hh. apply (H h). by right.
  - apply IH. intros h Hh. apply (H h). by right.
  - apply IH. intros h Hh. apply (H h). by right.
Qed.

(** Entries that stem from entries of another map, key by key and with the
    same disposable, inherit its bookkeeping. *)
Lemma disposers_ok_inherit (log : list nat) (mp mp' : gmap string IImageCache) :
  (∀ k item', mp' !! k = Some item' →
     ∃ item, mp !! k = Some item
             ∧ IImageCache.disposable item = IImageCache.disposable item') →
  disposers_ok log mp → disposers_ok log mp'.
Proof.
  intros Hfrom (Hnd & Hlive & Hinj). split; [done|]. split.
  - intros k item' (item & Hk & <-)%Hfrom. by eapply Hlive.
  - intros k1 k2 i1 i2 (j1 & H1 & Hd1)%Hfrom (j2 & H2 & Hd2)%Hfrom Heq.
    eapply Hinj; [done..|]. congruence.
Qed.

Lemma handles_ok_disposers s u su :
  handles_ok s → disposers_ok (released s) (ImageCacheMap._map (cache_of u su s)).
Proof.
  intros (Hnd & _ & Hlive & Hinj). split; [done|]. split.
  - intros k item Hk. by apply (Hlive u su k item).
  - intros k1 k2 i1 i2 H1 H2 Heq.
    by destruct (Hinj u su k1 i1 u su k2 i2 H1 H2 Heq) as (_ & _ & ?).
Qed.

(** One cache changes, losing entries or moving them, and what it lost was
    disposed. *)
Lemma handles_ok_cache_step s s' u su m' (ds : list nat) :
  handles_ok s →
  (∀ k item', ImageCacheMap._map m' !! k = Some item' →
     ∃ item, ImageCacheMap._map (cache_of u su s) !! k = Some item
             ∧ IImageCache.disposable item = IImageCache.disposable item') →
  (∀ d, d ∈ ds → ∃ k item, ImageCacheMap._map (cache_of u su s) !! k = Some item
                           ∧ IImageCache.disposable item = d) →
  disposers_ok (released s ++ ds) (ImageCacheMap._map m') →
  _imageMaps s' = _imageMaps (putMap u su m' s) →
  watches s' = watches s →
  released s' = released s ++ ds →
  handles_ok s'.
Proof.
  intros (Hnd & Hbelow & Hlive & Hinj) Hfrom Hds (Hnd' & Hlive' & Hinj')
    Hmaps Hwatches Hreleased.
  assert (∀ u1 su1, cache_of u1 su1 s'
            = if decide (u1 = u ∧ su1 = su) then m' else cache_of u1 su1 s) as Hcache.
  { intros u1 su1. by rewrite (cache_of_ext _ _ _ _ Hmaps), cache_of_putMap. }
  unfold handles_ok, cached, ImageCacheMap.getByKey in *.
  rewrite Hwatches, Hreleased. split; [done|]. split; [|split].
  - intros h [Hh|Hh]%elem_of_app; [by apply Hbelow|].
    apply Hds in Hh as (k & item & Hk & <-). by apply (Hlive u su k item).
  - intros u1 su1 k item. rewrite Hcache. case_decide as Heq.
    + intros Hk. split; [|by eapply Hlive'].
      apply Hfrom in Hk as (item0 & Hk0 & <-). by apply (Hlive u su k item0).
    + intros Hk. split; [by apply (Hlive u1 su1 k item)|].
      intros [Hin|Hin]%elem_of_app; [by apply (Hlive u1 su1 k item)|].
      apply Hds in Hin as (k0 & item0 & Hk0 & Hd0).
      destruct (Hinj u su k0 item0 u1 su1 k item Hk0 Hk Hd0) as (-> & -> & _).
      tauto.
  - intros u1 su1 k1 i1 u2 su2 k2 i2. rewrite !Hcache.
    destruct (decide (u1 = u ∧ su1 = su)) as [[-> ->]|Hne1],
             (decide (u2 = u ∧ su2 = su)) as [[-> ->]|Hne2].
    + intros H1 H2 Heq. split; [done|]. split; [done|]. by eapply Hinj'.
    + intros (j1 & H1 & Hd1)%Hfrom H2 Heq.
      destruct (Hinj u su k1 j1 u2 su2 k2 i2 H1 H2) as (-> & -> & _);
        [congruence|tauto].
    + intros H1 (j2 & H2 & Hd2)%Hfrom Heq.
      destruct (Hinj u1 su1 k1 i1 u su k2 j2 H1 H2) as (-> & -> & _);
        [congruence|tauto].
    + apply Hinj.
Qed.

(** One cache gains an entry whose watch was just handed out. *)
Lemma handles_ok_set s s' u su key item :
  handles_ok s →
  IImageCache.disposable item = watches s →
  _imageMaps s' = _imageMaps (putMap u su (ImageCacheMap.set key item (cache_of u su s)) s) →
  watches s' = S (watches s) →
  released s' = released s →
  handles_ok s'.
Proof.
  intros (Hnd & Hbelow & Hlive & Hinj) Hitem Hmaps Hwatches Hreleased.
  assert (∀ u1 su1, cache_of u1 su1 s'
            = if decide (u1 = u ∧ su1 = su)
              then ImageCacheMap.set key item (cache_of u su s)
              else cache_of u1 su1 s) as Hcache.
  { intros u1 su1. by rewrite (cache_of_ext _ _ _ _ Hmaps), cache_of_putMap. }
  assert (∀ k it, ImageCacheMap._map (ImageCacheMap.set key item (cache_of u su s)) !! k
                  = Some it →
            (k = key ∧ IImageCache.disposable it = watches s)
            ∨ (k ≠ key ∧ ∃ it0, ImageCacheMap._map (cache_of u su s) !! k = Some it0
                 ∧ IImageCache.disposable it0 = IImageCache.disposable it)) as Hset.
  { intros k it [it0 [Hk <-]]%update_origin. simpl in Hk.
    destruct (decide (k = key)) as [->|Hne].
    - rewrite lookup_insert_eq in Hk. injection Hk as <-. by left.
    - rewrite lookup_insert_ne in Hk by done. right. eauto. }
  unfold handles_ok, cached, ImageCacheMap.getByKey in *.
  rewrite Hwatches, Hreleased. split; [done|]. split; [|split].
  - intros h Hh. apply Hbelow in Hh. lia.
  - intros u1 su1 k it. rewrite Hcache. case_decide as Heq.
    + intros [[-> Hd]|(_ & it0 & Hk0 & <-)]%Hset.
      * rewrite Hd. split; [lia|]. intros Hin%Hbelow. lia.
      * destruct (Hlive u su k it0 Hk0). split; [lia|done].
    + intros Hk. destruct (Hlive u1 su1 k it Hk). split; [lia|done].
  - intros u1 su1 k1 i1 u2 su2 k2 i2. rewrite !Hcache.
    destruct (decide (u1 = u ∧ su1 = su)) as [[-> ->]|Hne1],
             (decide (u2 = u ∧ su2 = su)) as [[-> ->]|Hne2].
    + intros [[-> Hd1]|(Hk1 & j1 & H1 & Hd1)]%Hset [[-> Hd2]|(Hk2 & j2 & H2 & Hd2)]%Hset Heq;
        [done|..].
      * destruct (Hlive u su k2 j2 H2). lia.
      * destruct (Hlive u su k1 j1 H1). lia.
      * destruct (Hinj u su k1 j1 u su k2 j2 H1 H2) as (_ & _ & ->); [congruence|done].
    + intros [[-> Hd1]|(Hk1 & j1 & H1 & Hd1)]%Hset H2 Heq.
      * destruct (Hlive u2 su2 k2 i2 H2). lia.
      * destruct (Hinj u su k1 j1 u2 su2 k2 i2 H1 H2) as (-> & -> & _);
          [congruence|tauto].
    + intros H1 [[-> Hd2]|(Hk2 & j2 & H2 & Hd2)]%Hset Heq.
      * destruct (Hlive u1 su1 k1 i1 H1). lia.
      * destruct (Hinj u1 su1 k1 i1 u su k2 j2 H1 H2) as (-> & -> & _);
          [congruence|tauto].
    + apply Hinj.
Qed.

End Handles.

Section HandlesKept.
Import SheetCellCacheManagerService.
Implicit Types (s : SheetCellCacheManagerService.t) (m map : ImageCacheMap.t).
Implicit Types (unitId subUnitId key k u su : string) (row col r c : Z).

Lemma handles_ok_ext s s' :
  (∀ u su, cache_of u su s' = cache_of u su s) →
  watches s' = watches s → released s' = released s →
  handles_ok s → handles_ok s'.
Proof.
  intros Hcache Hwatches Hreleased (Hnd & Hbelow & Hlive & Hinj).
  unfold handles_ok, cached. rewrite Hwatches, Hreleased.
  split; [done|]. split; [done|]. split.
  - intros u su k item. rewrite Hcache. apply Hlive.
  - intros u su k item u' su' k' item'. rewrite !Hcache. apply Hinj.
Qed.

Lemma handles_ok_new : handles_ok new.
Proof.
  split; [constructor|]. split; [by intros h ?%elem_of_nil|].
  unfold cached, cache_of, getMap, ImageCacheMap.getByKey; simpl.
  split; intros *; by rewrite lookup_empty.
Qed.

Lemma handles_ok_ensureMap unitId subUnitId s :
  handles_ok s → handles_ok (_ensureMap unitId subUnitId s).2.
Proof.
  unfold _ensureMap.
  destruct (getMap unitId subUnitId s) as [map|] eqn:Hmap; [done|]. simpl.
  apply handles_ok_ext; [|done..].
  intros u su. rewrite cache_of_putMap. case_decide as Heq; [|done].
  destruct Heq as [-> ->]. unfold cache_of. by rewrite Hmap.
Qed.

Lemma handles_ok_handleDrawing unitId subUnitId row col doc imageCache s key :
  handles_ok s →
  handles_ok (handleDrawing unitId subUnitId row col doc imageCache s key).
Proof.
  intros H. unfold handleDrawing.
  destruct (imageCache !! key); [done|]. case_decide as Hproto; [done|].
  destruct (drawings doc); [|done].
  apply (handles_ok_set s _ unitId subUnitId key
           (IImageCache.mk (images s) (watches s) row col key loading));
    done.
Qed.

Lemma deleteByPosition_entries row col m k item :
  ImageCacheMap._map (ImageCacheMap.deleteByPosition row col m).2 !! k = Some item →
  ImageCacheMap._map m !! k = Some item.
Proof.
  unfold ImageCacheMap.deleteByPosition.
  destruct (ImageCacheMap._poistionMap m !! row) as [rowMap|]; [|done].
  destruct (rowMap !! col) as [colMap|]; [|done].
  simpl. rewrite foldl_evict_lookup. by case_decide.
Qed.

Lemma delete_entries key m k item :
  ImageCacheMap._map (ImageCacheMap.delete key m).2 !! k = Some item →
  ∃ item0, ImageCacheMap._map m !! k = Some item0
           ∧ IImageCache.disposable item0 = IImageCache.disposable item.
Proof.
  unfold ImageCacheMap.delete; simpl. rewrite evict_map; simpl.
  intros [_ Hk]%lookup_delete_Some. by apply update_origin in Hk.
Qed.

Lemma handles_ok_evictCell unitId subUnitId row col s loads' :
  handles_ok s →
  let r := ImageCacheMap.deleteByPosition row col
             (default ImageCacheMap.new (getMap unitId subUnitId s)) in
  let s' := putMap unitId subUnitId r.2 s in
  handles_ok
    (mk (_imageMaps s') (_initedMap s') (_collection s') (watches s') (images s')
        loads' (disposals s' ++ (WatchRange <$> r.1))).
Proof.
  intros H r s'.
  eapply (handles_ok_cache_step s _ unitId subUnitId r.2 r.1); [done|..].
  - intros k item' Hk%deleteByPosition_entries. eauto.
  - intros d Hd. by apply deleteByPosition_origin in Hd.
  - apply disposers_ok_deleteByPosition. by apply handles_ok_disposers.
  - done.
  - done.
  - unfold released; simpl. by rewrite released_app, released_watches.
Qed.

Lemma handles_ok_handleCell unitId subUnitId s entry :
  handles_ok s → handles_ok (handleCell unitId subUnitId s entry).
Proof.
  intros H. destruct entry as [[row col] cell]. unfold handleCell.
  destruct (cell ≫= p) as [doc|]; [|by apply handles_ok_evictCell].
  destruct (drawingsOrder doc) as [[|key order]|]; try by apply handles_ok_evictCell.
  generalize (ImageCacheMap.getByPosition row col
                (default ImageCacheMap.new (getMap unitId subUnitId s))).
  intros imageCache. generalize (key :: order). intros keys.
  revert s H. induction keys as [|k keys IH]; intros s H; simpl; [done|].
  by apply IH, handles_ok_handleDrawing.
Qed.

Lemma handles_ok_handleMatrix unitId subUnitId matrix s :
  handles_ok s → handles_ok (_handleMatrix unitId subUnitId matrix s).
Proof.
  intros H%(handles_ok_ensureMap unitId subUnitId). unfold _handleMatrix.
  revert H. generalize (_ensureMap unitId subUnitId s).2. clear s.
  induction matrix as [|entry matrix IH]; intros s H; simpl; [done|].
  by apply IH, handles_ok_handleCell.
Qed.

Lemma handles_ok_watchCallback unitId subUnitId key after s :
  handles_ok s → handles_ok (watchCallback unitId subUnitId key after s).
Proof.
  intros H. unfold watchCallback.
  destruct (getMap unitId subUnitId s) as [map|] eqn:Hmap; [|done].
  assert (cache_of unitId subUnitId s = map) as Hcache.
  { unfold cache_of. by rewrite Hmap. }
  pose proof (handles_ok_disposers s unitId subUnitId H) as Hok.
  rewrite Hcache in Hok.
  destruct after as [after|].
  - eapply (handles_ok_cache_step s _ unitId subUnitId _ []); [done|..].
    + rewrite Hcache. intros k item'. apply update_origin.
    + by intros d ?%elem_of_nil.
    + rewrite app_nil_r. by apply disposers_ok_update.
    + done.
    + done.
    + by rewrite app_nil_r.
  - eapply (handles_ok_cache_step s _ unitId subUnitId _
              (ImageCacheMap.delete key map).1); [done|..].
    + rewrite Hcache. intros k item'. apply delete_entries.
    + rewrite Hcache. intros d. apply delete_origin.
    + by apply disposers_ok_delete.
    + done.
    + done.
    + unfold released; simpl. by rewrite released_app, released_watches.
Qed.

Lemma handles_ok_settle st unitId subUnitId key disposable s :
  handles_ok s → handles_ok (settle st unitId subUnitId key disposable s).
Proof.
  intros H. unfold settle.
  destruct (getMap unitId subUnitId s) as [map|] eqn:Hmap; [|done].
  destruct (ImageCacheMap._map map !! key) as [item|] eqn:Hitem; [|done].
  case_decide; [|done].
  assert (cache_of unitId subUnitId s = map) as Hcache.
  { unfold cache_of. by rewrite Hmap. }
  assert (∀ k item',
            <[key := IImageCache.with_status item st]> (ImageCacheMap._map map) !! k
            = Some item' →
            ∃ item0, ImageCacheMap._map map !! k = Some item0
                     ∧ IImageCache.disposable item0 = IImageCache.disposable item')
    as Hfrom.
  { intros k item'. destruct (decide (k = key)) as [->|Hne].
    - rewrite lookup_insert_eq. intros [= <-]. eauto.
    - rewrite lookup_insert_ne by done. eauto. }
  eapply (handles_ok_cache_step s _ unitId subUnitId
            (ImageCacheMap.mk
               (<[key := IImageCache.with_status item st]> (ImageCacheMap._map map))
               (ImageCacheMap._poistionMap map)) []); [done|..].
  - rewrite Hcache. exact Hfrom.
  - by intros d ?%elem_of_nil.
  - rewrite app_nil_r. eapply disposers_ok_inherit; [exact Hfrom|].
    rewrite <- Hcache. by apply handles_ok_disposers.
  - done.
  - done.
  - by rewrite app_nil_r.
Qed.

Lemma handles_ok_dispose s :
  own_collection s → handles_ok s → handles_ok (dispose s).
Proof.
  intros Hown. apply handles_ok_ext; [done..|].
  unfold released; simpl. by rewrite released_app, (released_own _ Hown), app_nil_r.
Qed.

Lemma inv_initSubSheet sheet unitId subUnitId s :
  handles_ok s ∧ own_collection s →
  handles_ok (_initSubSheet sheet unitId subUnitId s)
  ∧ own_collection (_initSubSheet sheet unitId subUnitId s).
Proof.
  intros [H Hown]. unfold _initSubSheet.
  destruct (inited unitId subUnitId s); [done|].
  destruct sheet as [subSheet|]; [|done]. split.
  - apply handles_ok_handleMatrix. revert H. by apply handles_ok_ext.
  - intros h. rewrite collection_handleMatrix. apply Hown.
Qed.

Lemma inv_onCommandExecuted id sheet commandInfo s :
  handles_ok s ∧ own_collection s →
  handles_ok (onCommandExecuted id sheet commandInfo s)
  ∧ own_collection (onCommandExecuted id sheet commandInfo s).
Proof.
  intros [H Hown]. unfold onCommandExecuted.
  case_decide; [|done]. destruct (cellValue commandInfo) as [cells|]; [|done].
  destruct (negb _); [done|]. destruct sheet as [worksheet|]; [|done]. split.
  - by apply handles_ok_handleMatrix.
  - intros h. rewrite collection_handleMatrix. apply Hown.
Qed.

Lemma inv_call id s (c : Call) :
  handles_ok s ∧ own_collection s →
  handles_ok (call id s c) ∧ own_collection (call id s c).
Proof.
  intros [H Hown].
  destruct c as [sheet u su|sheet info|u su key after|st u su key d|]; simpl.
  - by apply inv_initSubSheet.
  - by apply inv_onCommandExecuted.
  - split; [by apply handles_ok_watchCallback|].
    apply (own_collection_fire s (EvWatch u su key after) Hown).
  - split; [by apply handles_ok_settle|].
    apply (own_collection_fire s (EvSettle st u su key d) Hown).
  - split; [by apply handles_ok_dispose|].
    apply (own_collection_fire s EvDispose Hown).
Qed.

Lemma drive_snoc id calls (c : Call) :
  drive id (calls ++ [c]) = call id (drive id calls) c.
Proof. unfold drive. by rewrite foldl_app. Qed.

Lemma inv_drive id calls :
  handles_ok (drive id calls) ∧ own_collection (drive id calls).
Proof.
  induction calls as [|c calls IH] using rev_ind.
  - split; [apply handles_ok_new|apply (own_collection_play [])].
  - rewrite drive_snoc. by apply inv_call.
Qed.

End HandlesKept.


Section ServiceFrames.
Import SheetCellCacheManagerService.
Implicit Types (s : SheetCellCacheManagerService.t) (m map : ImageCacheMap.t).
Implicit Types (unitId subUnitId key k u su : string) (row col r c : Z).

(** *** What a step on one sub unit leaves alone *)

Lemma getMap_handleDrawing u su unitId subUnitId row col doc imageCache s key :
  (u, su) ≠ (unitId, subUnitId) →
  getMap u su (handleDrawing unitId subUnitId row col doc imageCache s key)
  = getMap u su s.
Proof.
  intros Hne. unfold handleDrawing.
  destruct (imageCache !! key); [done|]. case_decide as Hproto; [done|].
  destruct (drawings doc); [|done].
  pose proof (getMap_putMap u su unitId subUnitId
    (ImageCacheMap.set key
       (IImageCache.mk (images s) (watches s) row col key loading)
       (default ImageCacheMap.new (getMap unitId subUnitId s))) s) as H.
  rewrite decide_False in H by (intros [-> ->]; done). exact H.
Qed.

Lemma getMap_handleCell u su unitId subUnitId s entry :
  (u, su) ≠ (unitId, subUnitId) →
  getMap u su (handleCell unitId subUnitId s entry) = getMap u su s.
Proof.
  intros Hne. destruct entry as [[row col] cell]. unfold handleCell.
  assert (∀ m' loads' disposals',
    getMap u su
      (mk (_imageMaps (putMap unitId subUnitId m' s))
          (_initedMap (putMap unitId subUnitId m' s))
          (_collection (putMap unitId subUnitId m' s))
          (watches (putMap unitId subUnitId m' s))
          (images (putMap unitId subUnitId m' s)) loads' disposals')
    = getMap u su s) as Hevict.
  { intros m' loads' disposals'.
    pose proof (getMap_putMap u su unitId subUnitId m' s) as H.
    rewrite decide_False in H by (intros [-> ->]; done). exact H. }
  destruct (cell ≫= p) as [doc|]; [|apply Hevict].
  destruct (drawingsOrder doc) as [[|key order]|]; try apply Hevict.
  generalize (ImageCacheMap.getByPosition row col
                (default ImageCacheMap.new (getMap unitId subUnitId s))).
  intros imageCache. generalize (key :: order). intros keys. clear Hevict.
  revert s. induction keys as [|k keys IH]; intros s; simpl; [done|].
  by rewrite IH, getMap_handleDrawing.
Qed.

Lemma getMap_ensureMap u su unitId subUnitId s :
  (u, su) ≠ (unitId, subUnitId) →
  getMap u su (_ensureMap unitId subUnitId s).2 = getMap u su s.
Proof.
  intros Hne. unfold _ensureMap. destruct (getMap unitId subUnitId s); [done|].
  simpl. rewrite getMap_putMap. rewrite decide_False; [done|].
  intros [-> ->]; done.
Qed.

Lemma getMap_handleMatrix u su unitId subUnitId matrix s :
  (u, su) ≠ (unitId, subUnitId) →
  getMap u su (_handleMatrix unitId subUnitId matrix s) = getMap u su s.
Proof.
  intros Hne. unfold _handleMatrix.
  rewrite <- (getMap_ensureMap u su unitId subUnitId s Hne).
  generalize (_ensureMap unitId subUnitId s).2. clear s.
  induction matrix as [|entry matrix IH]; intros s; simpl; [done|].
  by rewrite IH, getMap_handleCell.
Qed.

Lemma getMap_watchCallback u su unitId subUnitId key after s :
  (u, su) ≠ (unitId, subUnitId) →
  getMap u su (watchCallback unitId subUnitId key after s) = getMap u su s.
Proof.
  intros Hne. unfold watchCallback.
  destruct (getMap unitId subUnitId s) as [map|]; [|done].
  destruct after as [after|].
  - rewrite getMap_putMap. rewrite decide_False; [done|]. intros [-> ->]; done.
  - pose proof (getMap_putMap u su unitId subUnitId
                  (ImageCacheMap.delete key map).2 s) as H.
    rewrite decide_False in H by (intros [-> ->]; done). exact H.
Qed.

Lemma getMap_settle u su st unitId subUnitId key disposable s :
  (u, su) ≠ (unitId, subUnitId) →
  getMap u su (settle st unitId subUnitId key disposable s) = getMap u su s.
Proof.
  intros Hne. unfold settle.
  destruct (getMap unitId subUnitId s) as [map|]; [|done].
  destruct (ImageCacheMap._map map !! key); [|done].
  case_decide; [|done].
  rewrite getMap_putMap. rewrite decide_False; [done|]. intros [-> ->]; done.
Qed.

(** *** The cache of the sub unit stays in place *)

Lemma getMap_ext u su s s' :
  _imageMaps s' = _imageMaps s → getMap u su s' = getMap u su s.
Proof. intros H. unfold getMap. by rewrite H. Qed.

Lemma getMap_handleDrawing_Some unitId subUnitId row col doc imageCache s key :
  is_Some (getMap unitId subUnitId s) →
  is_Some (getMap unitId subUnitId
             (handleDrawing unitId subUnitId row col doc imageCache s key)).
Proof.
  intros H. unfold handleDrawing.
  destruct (imageCache !! key); [done|]. case_decide as Hproto; [done|].
  destruct (drawings doc); [|done].
  pose proof (getMap_putMap unitId subUnitId unitId subUnitId
    (ImageCacheMap.set key
       (IImageCache.mk (images s) (watches s) row col key loading)
       (default ImageCacheMap.new (getMap unitId subUnitId s))) s) as Hput.
  rewrite decide_True in Hput by done.
  erewrite getMap_ext; [rewrite Hput; eauto|done].
Qed.

Lemma getMap_handleCell_Some unitId subUnitId s entry :
  is_Some (getMap unitId subUnitId s) →
  is_Some (getMap unitId subUnitId (handleCell unitId subUnitId s entry)).
Proof.
  intros H. destruct entry as [[row col] cell]. unfold handleCell.
  assert (∀ m' loads' disposals',
    is_Some (getMap unitId subUnitId
      (mk (_imageMaps (putMap unitId subUnitId m' s))
          (_initedMap (putMap unitId subUnitId m' s))
          (_collection (putMap unitId subUnitId m' s))
          (watches (putMap unitId subUnitId m' s))
          (images (putMap unitId subUnitId m' s)) loads' disposals'))) as Hevict.
  { intros m' loads' disposals'.
    pose proof (getMap_putMap unitId subUnitId unitId subUnitId m' s) as Hput.
    rewrite decide_True in Hput by done.
    erewrite getMap_ext; [rewrite Hput; eauto|done]. }
  destruct (cell ≫= p) as [doc|]; [|apply Hevict].
  destruct (drawingsOrder doc) as [[|key order]|]; try apply Hevict.
  generalize (ImageCacheMap.getByPosition row col
                (default ImageCacheMap.new (getMap unitId subUnitId s))).
  intros imageCache. generalize (key :: order). intros keys. clear Hevict.
  revert s H. induction keys as [|k keys IH]; intros s H; simpl; [done|].
  by apply IH, getMap_handleDrawing_Some.
Qed.

Lemma getMap_ensureMap_Some unitId subUnitId s :
  is_Some (getMap unitId subUnitId (_ensureMap unitId subUnitId s).2).
Proof.
  unfold _ensureMap. destruct (getMap unitId subUnitId s) as [map|] eqn:Hmap.
  - simpl. rewrite Hmap. eauto.
  - simpl. rewrite getMap_putMap, decide_True by done. eauto.
Qed.

Lemma getMap_handleMatrix_Some unitId subUnitId matrix s :
  is_Some (getMap unitId subUnitId (_handleMatrix unitId subUnitId matrix s)).
Proof.
  unfold _handleMatrix.
  pose proof (getMap_ensureMap_Some unitId subUnitId s) as H. revert H.
  generalize (_ensureMap unitId subUnitId s).2. clear s.
  induction matrix as [|entry matrix IH]; intros s H; simpl; [done|].
  by apply IH, getMap_handleCell_Some.
Qed.

End ServiceFrames.

Section ServiceBookkeeping.
Import SheetCellCacheManagerService.
Implicit Types (s : SheetCellCacheManagerService.t) (m map : ImageCacheMap.t).
Implicit Types (unitId subUnitId key k u su : string) (row col r c : Z).

Lemma loads_ok_ext s s' :
  loads s' = loads s → images s' = images s → watches s' = watches s →
  loads_ok s → loads_ok s'.
Proof. unfold loads_ok. by intros -> -> ->. Qed.

Lemma loads_ok_handleDrawing unitId subUnitId row col doc imageCache s key :
  loads_ok s → loads_ok (handleDrawing unitId subUnitId row col doc imageCache s key).
Proof.
  intros (Hnd & Hbelow & Heq). unfold handleDrawing.
  destruct (imageCache !! key); [done|]. case_decide as Hproto; [done|].
  destruct (drawings doc) as [table|]; [|done].
  unfold loads_ok; simpl. destruct (table !! key) as [drawing|].
  - split; [|split].
    + rewrite fmap_app. apply NoDup_app. split; [done|]. split.
      * intros x (l & Hx & Hl)%list_elem_of_fmap Hx'%list_elem_of_singleton.
        apply Hbelow in Hl. simpl in Hx'. lia.
      * apply NoDup_singleton.
    + intros l [Hl|Hl%list_elem_of_singleton]%elem_of_app.
      * apply Hbelow in Hl. lia.
      * subst l. simpl. lia.
    + by rewrite Heq.
  - split; [done|]. split; [|by rewrite Heq].
    intros l Hl. apply Hbelow in Hl. lia.
Qed.

Lemma loads_ok_handleCell unitId subUnitId s entry :
  loads_ok s → loads_ok (handleCell unitId subUnitId s entry).
Proof.
  intros H. destruct entry as [[row col] cell]. unfold handleCell.
  destruct (cell ≫= p) as [doc|]; [|done].
  destruct (drawingsOrder doc) as [[|key order]|]; try done.
  generalize (ImageCacheMap.getByPosition row col
                (default ImageCacheMap.new (getMap unitId subUnitId s))).
  intros imageCache. generalize (key :: order). intros keys.
  revert s H. induction keys as [|k keys IH]; intros s H; simpl; [done|].
  by apply IH, loads_ok_handleDrawing.
Qed.

Lemma loads_ok_handleMatrix unitId subUnitId matrix s :
  loads_ok s → loads_ok (_handleMatrix unitId subUnitId matrix s).
Proof.
  intros H. unfold _handleMatrix.
  assert (loads_ok (_ensureMap unitId subUnitId s).2) as H'.
  { unfold _ensureMap. by destruct (getMap unitId subUnitId s). }
  revert H'. generalize (_ensureMap unitId subUnitId s).2. clear s H.
  induction matrix as [|entry matrix IH]; intros s H; simpl; [done|].
  by apply IH, loads_ok_handleCell.
Qed.

Lemma loads_ok_call id s (c : Call) : loads_ok s → loads_ok (call id s c).
Proof.
  intros H. destruct c as [sheet u su|sheet info|u su key after|st u su key d|]; simpl.
  - unfold _initSubSheet. destruct (inited u su s); [done|].
    destruct sheet; [|done]. by apply loads_ok_handleMatrix.
  - unfold onCommandExecuted. case_decide; [|done].
    destruct (cellValue info); [|done]. destruct (negb _); [done|].
    destruct sheet; [|done]. by apply loads_ok_handleMatrix.
  - unfold watchCallback. destruct (getMap u su s); [|done]. by destruct after.
  - unfold settle. destruct (getMap u su s) as [map|]; [|done].
    destruct (ImageCacheMap._map map !! key); [|done]. by case_decide.
  - done.
Qed.

Lemma loads_ok_drive id calls : loads_ok (drive id calls).
Proof.
  induction calls as [|c calls IH] using rev_ind.
  - split; [constructor|]. split; [by intros l ?%elem_of_nil|done].
  - rewrite drive_snoc. by apply loads_ok_call.
Qed.

Lemma keys_agree_call id s (c : Call) :
  caches keys_agree s → caches keys_agree (call id s c).
Proof.
  intros H. destruct c as [sheet u su|sheet info|u su key after|st u su key d|]; simpl.
  - unfold _initSubSheet. destruct (inited u su s); [done|].
    destruct sheet; [|done]. apply keys_agree_handleMatrix. by eapply caches_ext.
  - unfold onCommandExecuted. case_decide; [|done].
    destruct (cellValue info); [|done]. destruct (negb _); [done|].
    destruct sheet; [|done]. by apply keys_agree_handleMatrix.
  - by apply keys_agree_watchCallback.
  - by apply keys_agree_settle.
  - by eapply caches_ext.
Qed.

Lemma keys_agree_drive id calls : caches keys_agree (drive id calls).
Proof.
  induction calls as [|c calls IH] using rev_ind.
  - apply (keys_agree_play []).
  - rewrite drive_snoc. by apply keys_agree_call.
Qed.

Lemma keys_agree_cache_of u su s : caches keys_agree s → keys_agree (cache_of u su s).
Proof.
  intros H. unfold cache_of. apply caches_default; [apply keys_agree_new|done].
Qed.

Lemma disposal_count_released handle (log : list Disposer) :
  disposal_count (WatchRange handle) log
  = dispose_count handle
      (omap (λ d, match d with WatchRange h => Some h | _ => None end) log).
Proof.
  unfold disposal_count, dispose_count.
  induction log as [|d log IH]; [done|]. simpl.
  rewrite filter_cons. destruct d as [h| | |]; simpl.
  - rewrite filter_cons.
    destruct (decide (WatchRange h = WatchRange handle)) as [Heq|Hne],
             (decide (h = handle)) as [Heq'|Hne']; simpl; try congruence.
    + f_equal. exact IH.
    + exact IH.
  - first [exact IH | case_decide; [done|exact IH]].
  - first [exact IH | case_decide; [done|exact IH]].
  - first [exact IH | case_decide; [done|exact IH]].
Qed.

End ServiceBookkeeping.

(** X9.  However the service is driven after construction (sheets becoming
    active, commands executed, range watches firing, images settling,
    disposal), every range watch is released at most once, the watch of an
    entry that is still cached has not been released, and no two cached
    entries, of whatever sub units, share a watch. *)
Theorem range_watch_released_at_most_once (SetRangeValuesMutation_id : string)
    (calls : list Call) :
  let s := drive SetRangeValuesMutation_id calls in
  (∀ handle,
     (disposal_count (WatchRange handle) (SheetCellCacheManagerService.disposals s)
      ≤ 1)%nat)
  ∧ (∀ u su k item, cached s u su k = Some item →
       disposal_count (WatchRange (IImageCache.disposable item))
         (SheetCellCacheManagerService.disposals s) = 0%nat)
  ∧ (∀ u su k item u' su' k' item',
       cached s u su k = Some item → cached s u' su' k' = Some item' →
       IImageCache.disposable item = IImageCache.disposable item' →
       u = u' ∧ su = su' ∧ k = k').
Proof.
  intros s.
  destruct (inv_drive SetRangeValuesMutation_id calls) as [(Hnd & _ & Hlive & Hinj) _].
  fold s in Hnd, Hlive, Hinj. split; [|split; [|done]].
  - intros handle. rewrite disposal_count_released. by apply dispose_count_NoDup.
  - intros u su k item Hk. rewrite disposal_count_released.
    apply dispose_count_0. by apply (Hlive u su k item).
Qed.

(** X10.  Every entry the service creates gets an image element and a range
    watch of its own (as many elements as watches were handed out), and a
    load is requested on an element that was created, at most once per
    element. *)
Theorem image_element_loaded_at_most_once (SetRangeValuesMutation_id : string)
    (calls : list Call) :
  let s := drive SetRangeValuesMutation_id calls in
  NoDup (load_image <$> SheetCellCacheManagerService.loads s)
  ∧ (∀ l, l ∈ SheetCellCacheManagerService.loads s →
       (load_image l < SheetCellCacheManagerService.images s)%nat)
  ∧ SheetCellCacheManagerService.images s = SheetCellCacheManagerService.watches s.
Proof. intros s. apply loads_ok_drive. Qed.

(** X11.  A call works on one sub unit only: the cache of every other
    (unit, sub unit) pair is left exactly as it was, and disposing the
    service leaves all of them as they were. *)
Theorem calls_leave_other_sub_units_alone (SetRangeValuesMutation_id : string)
    (s : SheetCellCacheManagerService.t) (c : Call) (u su : string) :
  target c ≠ Some (u, su) →
  SheetCellCacheManagerService.getMap u su (call SetRangeValuesMutation_id s c)
  = SheetCellCacheManagerService.getMap u su s.
Proof.
  intros Hne.
  destruct c as [sheet unitId subUnitId|sheet info|unitId subUnitId key after
                 |st unitId subUnitId key d|]; simpl in *.
  - assert ((u, su) ≠ (unitId, subUnitId)) as Hne' by congruence.
    unfold _initSubSheet. destruct (inited unitId subUnitId s); [done|].
    destruct sheet; [|done]. by rewrite getMap_handleMatrix.
  - assert ((u, su) ≠ (command_unitId info, command_subUnitId info)) as Hne'
      by congruence.
    unfold onCommandExecuted. case_decide; [|done].
    destruct (cellValue info); [|done]. destruct (negb _); [done|].
    destruct sheet; [|done]. by rewrite getMap_handleMatrix.
  - apply getMap_watchCallback. congruence.
  - apply getMap_settle. congruence.
  - done.
Qed.

Lemma calls_leave_other_sub_units_alone_witness :
  SheetCellCacheManagerService.getMap "unit" "sheet2"
    (call "sheet.mutation.set-range-values"
       (drive "sheet.mutation.set-range-values"
          [CallInitSubSheet (Some (mkSheetContents [] (λ _ _, None))) "unit" "sheet2"])
       (CallWatch "unit" "sheet1" "img1" None))
  = SheetCellCacheManagerService.getMap "unit" "sheet2"
      (drive "sheet.mutation.set-range-values"
         [CallInitSubSheet (Some (mkSheetContents [] (λ _ _, None))) "unit" "sheet2"]).
Proof.
  apply (calls_leave_other_sub_units_alone "sheet.mutation.set-range-values"
           (drive "sheet.mutation.set-range-values"
              [CallInitSubSheet (Some (mkSheetContents [] (λ _ _, None)))
                 "unit" "sheet2"])
           (CallWatch "unit" "sheet1" "img1" None) "unit" "sheet2").
  simpl. intros H. discriminate H.
Defined.


Section ServiceScans.
Import SheetCellCacheManagerService.
Implicit Types (s : SheetCellCacheManagerService.t) (m map : ImageCacheMap.t).
Implicit Types (unitId subUnitId key k u su : string) (row col r c : Z).

Lemma cache_of_ensureMap u su unitId subUnitId s :
  cache_of u su (_ensureMap unitId subUnitId s).2 = cache_of u su s.
Proof.
  unfold _ensureMap.
  destruct (getMap unitId subUnitId s) as [map|] eqn:Hmap; [done|]. simpl.
  rewrite cache_of_putMap. case_decide as Heq; [|done].
  destruct Heq as [-> ->]. unfold cache_of. by rewrite Hmap.
Qed.

Lemma keys_agree_ensureMap unitId subUnitId s :
  caches keys_agree s → caches keys_agree (_ensureMap unitId subUnitId s).2.
Proof.
  intros H. unfold _ensureMap. destruct (getMap unitId subUnitId s); [done|].
  simpl. by apply caches_putMap; [apply keys_agree_new|].
Qed.

Lemma cache_of_rebuild u su s inited' collection' watches' images' loads' disposals' :
  cache_of u su
    (mk (_imageMaps s) inited' collection' watches' images' loads' disposals')
  = cache_of u su s.
Proof. done. Qed.

Lemma getMap_rebuild u su s inited' collection' watches' images' loads' disposals' :
  getMap u su
    (mk (_imageMaps s) inited' collection' watches' images' loads' disposals')
  = getMap u su s.
Proof. done. Qed.

Lemma handleMatrix_singleton unitId subUnitId entry s :
  _handleMatrix unitId subUnitId [entry] s
  = handleCell unitId subUnitId (_ensureMap unitId subUnitId s).2 entry.
Proof. done. Qed.

(** What [handleDrawing] does to the entries of its sub unit. *)
Lemma cached_handleDrawing unitId subUnitId row col doc imageCache s key k :
  cached (handleDrawing unitId subUnitId row col doc imageCache s key)
         unitId subUnitId k
  = match imageCache !! key with
    | Some _ => cached s unitId subUnitId k
    | None =>
        if decide (key ∈ Object_prototype) then cached s unitId subUnitId k
        else
          match drawings doc with
          | Some _ =>
              if decide (k = key)
              then Some (IImageCache.mk (images s) (watches s) row col key loading)
              else cached s unitId subUnitId k
          | None => cached s unitId subUnitId k
          end
    end.
Proof.
  unfold handleDrawing.
  destruct (imageCache !! key); [done|]. case_decide as Hproto; [done|].
  destruct (drawings doc); [|done].
  unfold cached. rewrite cache_of_rebuild.
  rewrite cache_of_putMap, decide_True by done. apply getByKey_set.
Qed.

Lemma cached_handleDrawing_mono unitId subUnitId row col doc imageCache s key k :
  is_Some (cached s unitId subUnitId k) →
  is_Some (cached (handleDrawing unitId subUnitId row col doc imageCache s key)
                  unitId subUnitId k).
Proof.
  intros H. rewrite cached_handleDrawing.
  destruct (imageCache !! key); [done|]. case_decide as Hproto; [done|].
  destruct (drawings doc); [|done].
  case_decide; [eauto|done].
Qed.

Lemma cached_foldl_handleDrawing_mono unitId subUnitId row col doc imageCache keys s k :
  is_Some (cached s unitId subUnitId k) →
  is_Some (cached (foldl (handleDrawing unitId subUnitId row col doc imageCache) s keys)
                  unitId subUnitId k).
Proof.
  revert s. induction keys as [|k0 keys IH]; intros s H; simpl; [done|].
  by apply IH, cached_handleDrawing_mono.
Qed.

Lemma cached_foldl_handleDrawing unitId subUnitId row col doc imageCache keys s key :
  is_Some (drawings doc) →
  key ∉ Object_prototype →
  (∀ k, is_Some (imageCache !! k) → is_Some (cached s unitId subUnitId k)) →
  key ∈ keys →
  is_Some (cached (foldl (handleDrawing unitId subUnitId row col doc imageCache) s keys)
                  unitId subUnitId key).
Proof.
  intros [table Htable] Hown. revert s.
  induction keys as [|k0 keys IH]; intros s Hinv Hin; simpl.
  { by apply elem_of_nil in Hin. }
  destruct (decide (key = k0)) as [->|Hne].
  - apply cached_foldl_handleDrawing_mono. rewrite cached_handleDrawing, Htable.
    destruct (imageCache !! k0) as [e|] eqn:Hk0.
    + apply Hinv. by rewrite Hk0.
    + rewrite decide_False by done. rewrite decide_True by done. eauto.
  - apply IH.
    + intros k Hk. by apply cached_handleDrawing_mono, Hinv.
    + apply elem_of_cons in Hin as [?|?]; done.
Qed.

Lemma initedMap_handleDrawing unitId subUnitId row col doc imageCache s key :
  _initedMap (handleDrawing unitId subUnitId row col doc imageCache s key)
  = _initedMap s.
Proof.
  unfold handleDrawing. destruct (imageCache !! key); [done|].
  case_decide as Hproto; [done|]. by destruct (drawings doc).
Qed.

Lemma initedMap_handleCell unitId subUnitId s entry :
  _initedMap (handleCell unitId subUnitId s entry) = _initedMap s.
Proof.
  destruct entry as [[row col] cell]. unfold handleCell.
  destruct (cell ≫= p) as [doc|]; [|done].
  destruct (drawingsOrder doc) as [[|key order]|]; try done.
  generalize (ImageCacheMap.getByPosition row col
                (default ImageCacheMap.new (getMap unitId subUnitId s))).
  intros imageCache. generalize (key :: order). intros keys.
  revert s. induction keys as [|k keys IH]; intros s; simpl; [done|].
  by rewrite IH, initedMap_handleDrawing.
Qed.

Lemma initedMap_handleMatrix unitId subUnitId matrix s :
  _initedMap (_handleMatrix unitId subUnitId matrix s) = _initedMap s.
Proof.
  unfold _handleMatrix.
  assert (_initedMap (_ensureMap unitId subUnitId s).2 = _initedMap s) as <-.
  { unfold _ensureMap. by destruct (getMap unitId subUnitId s). }
  generalize (_ensureMap unitId subUnitId s).2. clear s.
  induction matrix as [|entry matrix IH]; intros s; simpl; [done|].
  by rewrite IH, initedMap_handleCell.
Qed.

Lemma inited_ext u su s s' : _initedMap s' = _initedMap s → inited u su s' = inited u su s.
Proof. intros H. unfold inited. by rewrite H. Qed.

Lemma inited_initSubSheet_Some subSheet u su s :
  inited u su (_initSubSheet (Some subSheet) u su s) = true.
Proof.
  unfold _initSubSheet. destruct (inited u su s) eqn:Hinit; [done|].
  rewrite (inited_ext _ _ _ _ (initedMap_handleMatrix _ _ _ _)).
  unfold inited; simpl. by rewrite lookup_insert_eq; simpl; rewrite lookup_insert_eq.
Qed.

Lemma inited_call id u su s (c : Call) :
  inited u su s = true → inited u su (call id s c) = true.
Proof.
  intros H.
  destruct c as [sheet unitId subUnitId|sheet info|unitId subUnitId key after
                 |st unitId subUnitId key d|]; simpl.
  - unfold _initSubSheet. destruct (inited unitId subUnitId s) eqn:Hinit; [done|].
    destruct sheet as [subSheet|]; [|done].
    rewrite (inited_ext _ _ _ _ (initedMap_handleMatrix _ _ _ _)).
    unfold inited in *; simpl.
    destruct (decide (u = unitId)) as [->|Hu].
    + rewrite lookup_insert_eq; simpl.
      destruct (decide (su = subUnitId)) as [->|Hsu].
      * by rewrite lookup_insert_eq.
      * rewrite lookup_insert_ne by done.
        by destruct (_initedMap s !! unitId).
    + by rewrite lookup_insert_ne.
  - unfold onCommandExecuted. case_decide; [|done].
    destruct (cellValue info); [|done]. destruct (negb _); [done|].
    destruct sheet; [|done].
    by rewrite (inited_ext _ _ _ _ (initedMap_handleMatrix _ _ _ _)).
  - unfold watchCallback. destruct (getMap unitId subUnitId s); [|done].
    by destruct after.
  - unfold settle. destruct (getMap unitId subUnitId s) as [map|]; [|done].
    destruct (ImageCacheMap._map map !! key); [|done]. by case_decide.
  - done.
Qed.

End ServiceScans.

(** X12.  Handing a matrix to [_handleMatrix] in two pieces, one after the
    other, is the same as handing it over whole. *)
Theorem handleMatrix_app (unitId subUnitId : string) (matrix1 matrix2 : ObjectMatrix)
    (s : SheetCellCacheManagerService.t) :
  SheetCellCacheManagerService._handleMatrix unitId subUnitId (matrix1 ++ matrix2) s
  = SheetCellCacheManagerService._handleMatrix unitId subUnitId matrix2
      (SheetCellCacheManagerService._handleMatrix unitId subUnitId matrix1 s).
Proof.
  destruct (getMap_handleMatrix_Some unitId subUnitId matrix1 s) as [map Hmap].
  unfold SheetCellCacheManagerService._handleMatrix at 1 2.
  rewrite (ensureMap_present _ _ _ _ Hmap).
  unfold SheetCellCacheManagerService._handleMatrix. by rewrite foldl_app.
Qed.

(** X13.  A cell that lists no drawings (no cell, no rich text, no drawing
    order or an empty one) has its position emptied: afterwards the position
    lookup of the service returns the empty record, and nothing is watched
    or loaded for it. *)
Theorem cell_without_drawings_empties_position (unitId subUnitId : string)
    (row col : Z) (cell : option ICellData) (s : SheetCellCacheManagerService.t) :
  (cell ≫= p) ≫= drawingsOrder = None ∨ (cell ≫= p) ≫= drawingsOrder = Some [] →
  let s' := SheetCellCacheManagerService._handleMatrix unitId subUnitId
              [(row, col, cell)] s in
  SheetCellCacheManagerService.getImageCache unitId subUnitId row col s' = Some ∅
  ∧ SheetCellCacheManagerService.watches s' = SheetCellCacheManagerService.watches s
  ∧ SheetCellCacheManagerService.loads s' = SheetCellCacheManagerService.loads s.
Proof.
  intros Hcell s'. unfold s'. rewrite handleMatrix_singleton.
  assert (SheetCellCacheManagerService.watches
            (SheetCellCacheManagerService._ensureMap unitId subUnitId s).2
          = SheetCellCacheManagerService.watches s
          ∧ SheetCellCacheManagerService.loads
              (SheetCellCacheManagerService._ensureMap unitId subUnitId s).2
            = SheetCellCacheManagerService.loads s) as [<- <-].
  { unfold SheetCellCacheManagerService._ensureMap.
    by destruct (SheetCellCacheManagerService.getMap unitId subUnitId s). }
  generalize (SheetCellCacheManagerService._ensureMap unitId subUnitId s).2.
  intros s1. unfold SheetCellCacheManagerService.handleCell.
  assert (∀ m' loads' disposals',
    SheetCellCacheManagerService.getImageCache unitId subUnitId row col
      (SheetCellCacheManagerService.mk
         (SheetCellCacheManagerService._imageMaps
            (SheetCellCacheManagerService.putMap unitId subUnitId m' s1))
         (SheetCellCacheManagerService._initedMap
            (SheetCellCacheManagerService.putMap unitId subUnitId m' s1))
         (SheetCellCacheManagerService._collection
            (SheetCellCacheManagerService.putMap unitId subUnitId m' s1))
         (SheetCellCacheManagerService.watches
            (SheetCellCacheManagerService.putMap unitId subUnitId m' s1))
         (SheetCellCacheManagerService.images
            (SheetCellCacheManagerService.putMap unitId subUnitId m' s1))
         loads' disposals')
    = Some (ImageCacheMap.getByPosition row col m')) as Hget.
  { intros m' loads' disposals'. apply getImageCache_getMap.
    rewrite getMap_rebuild. by rewrite getMap_putMap, decide_True. }
  destruct (cell ≫= p) as [doc|]; simpl in Hcell.
  - destruct (drawingsOrder doc) as [[|key order]|].
    + rewrite Hget. unfold ImageCacheMap.getByPosition.
      by rewrite deleteByPosition_getByPosition.
    + by destruct Hcell.
    + rewrite Hget. unfold ImageCacheMap.getByPosition.
      by rewrite deleteByPosition_getByPosition.
  - rewrite Hget. unfold ImageCacheMap.getByPosition.
    by rewrite deleteByPosition_getByPosition.
Qed.

Lemma cell_without_drawings_empties_position_witness :
  let cell := Some (mkCellData (Some (mkDocumentData
                (Some {["img1" := mkImageData "https://example.com/a.png" URL]})
                (Some ["img1"])))) in
  let s := play [EvHandleMatrix "unit" "sheet" [(2, 3, cell)]] in
  SheetCellCacheManagerService.getImageCache "unit" "sheet" 2 3
    (SheetCellCacheManagerService._handleMatrix "unit" "sheet"
       [(2, 3, Some (mkCellData None))] s)
  = Some ∅.
Proof.
  intros cell s.
  apply (cell_without_drawings_empties_position "unit" "sheet" 2 3
           (Some (mkCellData None)) s).
  left. reflexivity.
Defined.

(** X14.  In every state the service can reach, when [_handleMatrix]
    returns, every drawing key listed by the cell it visited last has an
    entry in the cache of the sub unit, provided the rich text of that cell
    has a drawings table and the key is not a name inherited from
    [Object.prototype] (for such a name [imageCache[key]] is true and the
    key is skipped).  Keys of earlier cells are not covered: a later cell
    may evict them. *)
Theorem listed_drawings_are_cached (SetRangeValuesMutation_id : string)
    (calls : list Call) (unitId subUnitId : string) (matrix : ObjectMatrix)
    (row col : Z) (doc : IDocumentData) (order : list string) (key : string) :
  is_Some (drawings doc) →
  drawingsOrder doc = Some order →
  key ∈ order →
  key ∉ Object_prototype →
  is_Some (cached
             (SheetCellCacheManagerService._handleMatrix unitId subUnitId
                (matrix ++ [(row, col, Some (mkCellData (Some doc)))])
                (drive SetRangeValuesMutation_id calls))
             unitId subUnitId key).
Proof.
  intros Hdrawings Horder Hin Hown.
  pose proof (keys_agree_drive SetRangeValuesMutation_id calls) as Hkeys.
  apply (keys_agree_handleMatrix unitId subUnitId matrix) in Hkeys.
  destruct (getMap_handleMatrix_Some unitId subUnitId matrix
              (drive SetRangeValuesMutation_id calls)) as [map Hmap].
  unfold SheetCellCacheManagerService._handleMatrix at 1.
  rewrite foldl_app.
  fold (SheetCellCacheManagerService._handleMatrix unitId subUnitId matrix
          (drive SetRangeValuesMutation_id calls)).
  revert Hkeys Hmap.
  generalize (SheetCellCacheManagerService._handleMatrix unitId subUnitId matrix
                (drive SetRangeValuesMutation_id calls)).
  intros s Hkeys Hmap. cbn [foldl].
  unfold SheetCellCacheManagerService.handleCell.
  change (Some (mkCellData (Some doc)) ≫= p) with (Some doc).
  cbv beta iota. rewrite Horder.
  destruct order as [|k0 order]; [by apply elem_of_nil in Hin|].
  apply cached_foldl_handleDrawing; [done|done| |done].
  intros k [e He]. fold (cache_of unitId subUnitId s) in He.
  apply getByPosition_Some in He as (Hkey & k' & _ & Hk').
  pose proof (keys_agree_cache_of unitId subUnitId s Hkeys k' e Hk') as Heq.
  unfold cached, ImageCacheMap.getByKey. rewrite <- Hkey, Heq. eauto.
Qed.

Lemma listed_drawings_are_cached_witness :
  is_Some (cached
             (SheetCellCacheManagerService._handleMatrix "unit" "sheet"
                ([(0, 0, None)] ++
                 [(2, 3, Some (mkCellData (Some (mkDocumentData
                    (Some {["img1" := mkImageData "https://example.com/a.png" URL]})
                    (Some ["img1"; "img2"])))))])
                (drive "sheet.mutation.set-range-values" []))
             "unit" "sheet" "img2").
Proof.
  apply (listed_drawings_are_cached "sheet.mutation.set-range-values" []
           "unit" "sheet" [(0, 0, None)] 2 3
           (mkDocumentData
              (Some {["img1" := mkImageData "https://example.com/a.png" URL]})
              (Some ["img1"; "img2"]))
           ["img1"; "img2"] "img2").
  - simpl. eauto.
  - reflexivity.
  - repeat constructor.
  - apply (bool_decide_unpack _). vm_compute. exact I.
Defined.

(** X15.  The two image lookups of the service agree in every state it can
    reach: an image element listed under a key at some position is the
    element the lookup by key returns for that key. *)
Theorem image_lookups_agree (SetRangeValuesMutation_id : string) (calls : list Call)
    (unitId subUnitId : string) (row col : Z) (record : gmap string nat)
    (key : string) (imageElement : nat) :
  let s := drive SetRangeValuesMutation_id calls in
  SheetCellCacheManagerService.getImageElementByPosition unitId subUnitId row col s
  = Some record →
  record !! key = Some imageElement →
  SheetCellCacheManagerService.getImageElementByKey unitId subUnitId key s
  = Some imageElement.
Proof.
  intros s Hrecord Hkey.
  unfold SheetCellCacheManagerService.getImageElementByPosition in Hrecord.
  destruct (SheetCellCacheManagerService.getMap unitId subUnitId s) as [map|] eqn:Hmap;
    [|done].
  injection Hrecord as <-.
  rewrite (getImageElementByKey_getMap _ _ _ _ _ Hmap).
  unfold ImageCacheMap.getImageCahce in Hkey.
  rewrite makeImageRecord_fmap, lookup_fmap in Hkey.
  fold (ImageCacheMap.getByPosition row col map) in Hkey.
  destruct (ImageCacheMap.getByPosition row col map !! key) as [e|] eqn:He; [|done].
  injection Hkey as <-.
  apply getByPosition_Some in He as (Hk & k' & _ & Hk').
  pose proof (keys_agree_drive SetRangeValuesMutation_id calls unitId subUnitId map Hmap
                k' e Hk') as Heq.
  unfold ImageCacheMap.getByKey. by rewrite <- Hk, Heq, Hk'.
Qed.

Lemma image_lookups_agree_witness :
  SheetCellCacheManagerService.getImageElementByKey "unit" "sheet" "img1"
    (drive "sheet.mutation.set-range-values"
       [CallInitSubSheet
          (Some (mkSheetContents
             [(2, 3, Some (mkCellData (Some (mkDocumentData
                 (Some {["img1" := mkImageData "https://example.com/a.png" URL]})
                 (Some ["img1"])))))]
             (λ _ _, None)))
          "unit" "sheet"])
  = Some 0%nat.
Proof.
  apply (image_lookups_agree "sheet.mutation.set-range-values"
           [CallInitSubSheet
              (Some (mkSheetContents
                 [(2, 3, Some (mkCellData (Some (mkDocumentData
                     (Some {["img1" := mkImageData "https://example.com/a.png" URL]})
                     (Some ["img1"])))))]
                 (λ _ _, None)))
              "unit" "sheet"]
           "unit" "sheet" 2 3 {["img1" := 0%nat]} "img1" 0%nat).
  - vm_compute. reflexivity.
  - vm_compute. reflexivity.
Defined.

(** X16.  A sub sheet is scanned once: after [_initSubSheet] found and
    scanned it, it stays marked through every later call into the service,
    and a further [_initSubSheet] for it changes nothing, whatever the sheet
    holds by then. *)
Theorem initSubSheet_scans_once (SetRangeValuesMutation_id : string)
    (subSheet : SheetContents) (unitId subUnitId : string)
    (s : SheetCellCacheManagerService.t) (calls : list Call)
    (sheet' : option SheetContents) :
  let s1 := _initSubSheet (Some subSheet) unitId subUnitId s in
  let s2 := foldl (call SetRangeValuesMutation_id) s1 calls in
  inited unitId subUnitId s2 = true
  ∧ _initSubSheet sheet' unitId subUnitId s2 = s2.
Proof.
  intros s1 s2.
  assert (inited unitId subUnitId s2 = true) as Hinit.
  { unfold s2. clear s2.
    pose proof (inited_initSubSheet_Some subSheet unitId subUnitId s) as H.
    fold s1 in H. revert H. generalize s1. clear s1.
    induction calls as [|c calls IH]; intros s1 H; simpl; [done|].
    by apply IH, inited_call. }
  split; [done|]. unfold _initSubSheet. by rewrite Hinit.
Qed.

(** * Further properties of [AutoWidthController] and of the mention commands *)

Section SynthesisErrors.
Variable SetStyleCommand_id : string.
Variable SetWorksheetColIsAutoWidthCommand_id : string.
Variable SetWorksheetColAutoWidthMutation_id : string.
Variable Skeleton : Type.
Variable calculateAutoWidthInRange : Skeleton → list IRange → list IColAutoWidthInfo.

(** The synthesizer raises when there is no current workbook, or no
    renderer for it, and only then. *)
Lemma getUndoRedoParamsOfColWidth_raises (ranges : list IRange)
    (env : AutoWidthController.Services Skeleton) :
  AutoWidthController.getUndoRedoParamsOfColWidth SetWorksheetColAutoWidthMutation_id
    Skeleton calculateAutoWidthInRange ranges env = TypeError
  ↔ (AutoWidthController.getCurrentUnitForType Skeleton env = None
     ∨ ∃ workbook,
         AutoWidthController.getCurrentUnitForType Skeleton env = Some workbook
         ∧ AutoWidthController.getRenderById Skeleton env (workbook_unitId workbook)
           = None).
Proof.
  unfold AutoWidthController.getUndoRedoParamsOfColWidth.
  destruct (AutoWidthController.getCurrentUnitForType Skeleton env) as [workbook|];
    [|by split; [left|]].
  destruct (AutoWidthController.getRenderById Skeleton env (workbook_unitId workbook))
    as [getCurrent|] eqn:Hrender.
  - split.
    + case_decide; [done|]. by destruct getCurrent.
    + intros [?|(wb & [= <-] & H)]; congruence.
  - split; [|done]. intros _. right. eauto.
Qed.

(** X17.  The synthesizer raises exactly when the current workbook or its
    renderer is missing; an interceptor raises exactly when, in addition,
    the command is its own and (for a style change) resolves at least one
    range.  A command of another id, a style that does not affect layout
    and an empty selection never raise, whatever the services hold. *)
Theorem interceptors_raise_exactly_when (command : SetStyleCommandInfo)
    (cw : ColIsAutoWidthCommand) (ranges : list IRange)
    (env : AutoWidthController.Services Skeleton) :
  let missing :=
    AutoWidthController.getCurrentUnitForType Skeleton env = None
    ∨ ∃ workbook,
        AutoWidthController.getCurrentUnitForType Skeleton env = Some workbook
        ∧ AutoWidthController.getRenderById Skeleton env (workbook_unitId workbook)
          = None in
  (AutoWidthController.getUndoRedoParamsOfColWidth SetWorksheetColAutoWidthMutation_id
     Skeleton calculateAutoWidthInRange ranges env = TypeError ↔ missing)
  ∧ (AutoWidthController.getMutations_setStyle SetStyleCommand_id
       SetWorksheetColAutoWidthMutation_id Skeleton calculateAutoWidthInRange
       command env = TypeError
     ↔ AutoWidthController.resolved_setStyle SetStyleCommand_id Skeleton command env
       ≠ [] ∧ missing)
  ∧ (AutoWidthController.getMutations_colIsAutoWidth
       SetWorksheetColIsAutoWidthCommand_id SetWorksheetColAutoWidthMutation_id
       Skeleton calculateAutoWidthInRange cw env = TypeError
     ↔ cw_id cw = SetWorksheetColIsAutoWidthCommand_id ∧ missing).
Proof.
  intros missing. split; [|split].
  - apply getUndoRedoParamsOfColWidth_raises.
  - unfold AutoWidthController.getMutations_setStyle,
      AutoWidthController.resolved_setStyle.
    case_decide; [by split; [|intros []]|].
    destruct (negb _); [by split; [|intros []]|].
    destruct (AutoWidthController.getCurrentSelections Skeleton env)
      as [[|range selections]|]; simpl.
    + by split; [|intros []].
    + rewrite getUndoRedoParamsOfColWidth_raises. by split; [|intros []].
    + by split; [|intros []].
  - unfold AutoWidthController.getMutations_colIsAutoWidth.
    case_decide as Hid.
    + by split; [|intros []].
    + rewrite getUndoRedoParamsOfColWidth_raises.
      split; [intros ?; split; [|done]|by intros []].
      by destruct (decide (cw_id cw = SetWorksheetColIsAutoWidthCommand_id)).
Qed.

End SynthesisErrors.

Section MentionCommands.
Variable CUSTOM_RANGE_START : N.
Variable CUSTOM_RANGE_END : N.
Variable Mutation : Type.
Variable replaceSelectionFactory : IReplaceSelection → option Mutation.
Variable deleteCustomRangeFactory : string → string → option Mutation.
Variable executeCommand : Mutation → bool.

(** X18.  The body [AddDocMentionCommand] inserts holds one custom range,
    and that range covers the data stream from its first character, the
    start token, to its last, the end token, for every label, the empty one
    included; the label sits between them after the ['@']. *)
Theorem mention_range_spans_data_stream (mention : IDocMention) :
  let body := DocMention.mentionBody CUSTOM_RANGE_START CUSTOM_RANGE_END mention in
  ∃ range,
    customRanges body = [range]
    ∧ rangeId range = mention_id mention
    ∧ range_startIndex range = 0
    ∧ range_endIndex range = Z.of_nat (length (dataStream body)) - 1
    ∧ range_endIndex range = Z.of_nat (length (mention_label mention)) + 4
    ∧ dataStream body !! Z.to_nat (range_startIndex range) = Some CUSTOM_RANGE_START
    ∧ dataStream body !! Z.to_nat (range_endIndex range) = Some CUSTOM_RANGE_END
    ∧ take (length (mention_label mention)) (drop 3 (dataStream body))
      = mention_label mention.
Proof.
  intros body.
  set (ds := DocMention.mentionDataStream CUSTOM_RANGE_START CUSTOM_RANGE_END mention).
  assert (length ds = (length (mention_label mention) + 5)%nat) as Hlen.
  { unfold ds, DocMention.mentionDataStream. rewrite !length_app. simpl. lia. }
  exists (mkCustomRange 0 (Z.of_nat (length ds) - 1) (mention_id mention)
            MENTION true mention).
  unfold body, DocMention.mentionBody. fold ds.
  cbn [customRanges rangeId range_startIndex range_endIndex dataStream].
  split; [done|]. split; [done|]. split; [done|]. split; [done|].
  split; [lia|]. split; [done|]. split.
  - replace (Z.to_nat (Z.of_nat (length ds) - 1))
      with (3 + (length (mention_label mention) + 1))%nat by lia.
    unfold ds, DocMention.mentionDataStream.
    rewrite (lookup_app_r [CUSTOM_RANGE_START; 32%N; 64%N]) by (simpl; lia).
    rewrite lookup_app_r by (simpl; lia).
    replace (3 + (length (mention_label mention) + 1)
             - length [CUSTOM_RANGE_START; 32%N; 64%N]
             - length (mention_label mention))%nat with 1%nat by (simpl; lia).
    done.
  - unfold ds, DocMention.mentionDataStream.
    change (drop 3 ([CUSTOM_RANGE_START; 32%N; 64%N] ++ mention_label mention
                    ++ [32%N; CUSTOM_RANGE_END]))
      with (mention_label mention ++ [32%N; CUSTOM_RANGE_END]).
    by rewrite take_app_length.
Qed.

(** X19.  A mention command has the command service execute at most one
    mutation, the one its factory built, and answers with what the command
    service answers; without parameters, without an active text range (when
    adding) or without a mutation from the factory it executes nothing and
    answers [false]. *)
Theorem mention_commands_execute_only_the_factory_mutation
    (params : option IAddDocMentionCommandParams) (activeRange : option ITextRange)
    (deleteParams : option IDeleteDocMentionCommandParams) :
  let add := DocMention.AddDocMentionCommand_handler CUSTOM_RANGE_START
               CUSTOM_RANGE_END Mutation replaceSelectionFactory executeCommand
               params activeRange in
  let del := DocMention.DeleteDocMentionCommand_handler Mutation
               deleteCustomRangeFactory executeCommand deleteParams in
  ((length add.2 ≤ 1)%nat ∧ (add.2 = [] → add.1 = false)
   ∧ (∀ m, m ∈ add.2 →
        add.1 = executeCommand m
        ∧ ∃ p a, params = Some p ∧ activeRange = Some a
            ∧ replaceSelectionFactory
                (mkReplaceSelection (add_unitId p)
                   (DocMention.mentionBody CUSTOM_RANGE_START CUSTOM_RANGE_END
                      (add_mention p))
                   (mkTextRange (add_startIndex p) (endOffset a)
                      (bool_decide (add_startIndex p = endOffset a))))
              = Some m))
  ∧ ((length del.2 ≤ 1)%nat ∧ (del.2 = [] → del.1 = false)
     ∧ (∀ m, m ∈ del.2 →
          del.1 = executeCommand m
          ∧ ∃ p, deleteParams = Some p
              ∧ deleteCustomRangeFactory (delete_unitId p) (delete_mentionId p)
                = Some m)).
Proof.
  intros add del. split.
  - unfold add, DocMention.AddDocMentionCommand_handler.
    destruct params as [p|]; [|by split; [simpl; lia|split; [done|intros ? ?%elem_of_nil]]].
    destruct activeRange as [a|];
      [|by split; [simpl; lia|split; [done|intros ? ?%elem_of_nil]]].
    destruct (replaceSelectionFactory _) as [m|] eqn:Hm;
      [|by split; [simpl; lia|split; [done|intros ? ?%elem_of_nil]]].
    simpl. split; [lia|]. split; [done|].
    intros m' ->%list_elem_of_singleton. split; [done|]. eauto.
  - unfold del, DocMention.DeleteDocMentionCommand_handler.
    destruct deleteParams as [p|];
      [|by split; [simpl; lia|split; [done|intros ? ?%elem_of_nil]]].
    destruct (deleteCustomRangeFactory _ _) as [m|] eqn:Hm;
      [|by split; [simpl; lia|split; [done|intros ? ?%elem_of_nil]]].
    simpl. split; [lia|]. split; [done|].
    intros m' ->%list_elem_of_singleton. split; [done|]. eauto.
Qed.

End MentionCommands.

Section ServicePlaced.
Import SheetCellCacheManagerService.
Implicit Types (s : SheetCellCacheManagerService.t) (m map : ImageCacheMap.t).
Implicit Types (unitId subUnitId key k u su : string) (row col r c : Z).

Lemma placed_new : placed ImageCacheMap.new.
Proof. intros k item; simpl. by rewrite lookup_empty. Qed.

Lemma placed_handleDrawing unitId subUnitId row col doc imageCache s key :
  caches placed s →
  caches placed (handleDrawing unitId subUnitId row col doc imageCache s key).
Proof.
  intros H. unfold handleDrawing.
  destruct (imageCache !! key); [done|]. case_decide as Hproto; [done|].
  destruct (drawings doc); [|done].
  eapply caches_ext; [reflexivity|]. apply caches_putMap; [|done].
  apply placed_set. by apply caches_default; [apply placed_new|].
Qed.

Lemma placed_evictCell unitId subUnitId row col s loads' disposals' :
  caches placed s →
  let r := ImageCacheMap.deleteByPosition row col
             (default ImageCacheMap.new (getMap unitId subUnitId s)) in
  let s' := putMap unitId subUnitId r.2 s in
  caches placed
    (mk (_imageMaps s') (_initedMap s') (_collection s') (watches s') (images s')
        loads' disposals').
Proof.
  intros H r s'. eapply caches_ext; [reflexivity|]. apply caches_putMap; [|done].
  apply placed_deleteByPosition. by apply caches_default; [apply placed_new|].
Qed.

Lemma placed_handleCell unitId subUnitId s entry :
  caches placed s → caches placed (handleCell unitId subUnitId s entry).
Proof.
  intros H. destruct entry as [[row col] cell]. unfold handleCell.
  destruct (cell ≫= p) as [doc|]; [|by apply placed_evictCell].
  destruct (drawingsOrder doc) as [[|key order]|]; try by apply placed_evictCell.
  generalize (ImageCacheMap.getByPosition row col
                (default ImageCacheMap.new (getMap unitId subUnitId s))).
  intros imageCache. generalize (key :: order). intros keys.
  revert s H. induction keys as [|k keys IH]; intros s H; simpl; [done|].
  by apply IH, placed_handleDrawing.
Qed.

Lemma placed_handleMatrix unitId subUnitId matrix s :
  caches placed s → caches placed (_handleMatrix unitId subUnitId matrix s).
Proof.
  intros H. unfold _handleMatrix.
  assert (caches placed (_ensureMap unitId subUnitId s).2) as H'.
  { unfold _ensureMap. destruct (getMap unitId subUnitId s); [done|].
    simpl. by apply caches_putMap; [apply placed_new|]. }
  revert H'. generalize (_ensureMap unitId subUnitId s).2. clear s H.
  induction matrix as [|entry matrix IH]; intros s H; simpl; [done|].
  by apply IH, placed_handleCell.
Qed.

Lemma placed_watchCallback unitId subUnitId key after s :
  caches placed s → caches placed (watchCallback unitId subUnitId key after s).
Proof.
  intros H. unfold watchCallback.
  destruct (getMap unitId subUnitId s) as [map|] eqn:Hmap; [|done].
  destruct after as [after|].
  - apply caches_putMap; [|done]. apply placed_update. by eapply H.
  - eapply caches_ext; [reflexivity|]. apply caches_putMap; [|done].
    apply placed_delete. by eapply H.
Qed.

Lemma placed_settle st unitId subUnitId key disposable s :
  caches placed s → caches placed (settle st unitId subUnitId key disposable s).
Proof.
  intros H. unfold settle.
  destruct (getMap unitId subUnitId s) as [map|] eqn:Hmap; [|done].
  destruct (ImageCacheMap._map map !! key) as [item|] eqn:Hitem; [|done].
  case_decide; [|done]. apply caches_putMap; [|done].
  intros k it; simpl. destruct (decide (k = key)) as [->|Hne].
  - rewrite lookup_insert_eq. intros [= <-]. simpl.
    apply (H _ _ map Hmap key item Hitem).
  - rewrite lookup_insert_ne by done. apply (H _ _ map Hmap k it).
Qed.

Lemma placed_call id s (c : Call) : caches placed s → caches placed (call id s c).
Proof.
  intros H. destruct c as [sheet u su|sheet info|u su key after|st u su key d|]; simpl.
  - unfold _initSubSheet. destruct (inited u su s); [done|].
    destruct sheet; [|done]. apply placed_handleMatrix. by eapply caches_ext.
  - unfold onCommandExecuted. case_decide; [|done].
    destruct (cellValue info); [|done]. destruct (negb _); [done|].
    destruct sheet; [|done]. by apply placed_handleMatrix.
  - by apply placed_watchCallback.
  - by apply placed_settle.
  - by eapply caches_ext.
Qed.

Lemma placed_drive id calls : caches placed (drive id calls).
Proof.
  induction calls as [|c calls IH] using rev_ind.
  - intros u su map. unfold drive, getMap; simpl. by rewrite lookup_empty.
  - rewrite drive_snoc. by apply placed_call.
Qed.

End ServicePlaced.

(** X20.  When a range watch reports the rectangle an entry has moved to,
    with coordinates other than [-1], the position lookup of the service at
    the rectangle's first row and column returns the entry under its key,
    with exactly these coordinates. *)
Theorem moved_entry_found_at_new_position (SetRangeValuesMutation_id : string)
    (calls : list Call) (unitId subUnitId key : string) (item : IImageCache)
    (after : IRange) :
  let s := drive SetRangeValuesMutation_id calls in
  cached s unitId subUnitId key = Some item →
  startRow after ≠ -1 → startColumn after ≠ -1 →
  SheetCellCacheManagerService.getImageCache unitId subUnitId
    (startRow after) (startColumn after)
    (SheetCellCacheManagerService.watchCallback unitId subUnitId key (Some after) s)
    ≫= (λ record, record !! key)
  = Some (IImageCache.move item (startRow after) (startColumn after)).
Proof.
  intros s Hitem Hrow Hcol. unfold cached, cache_of, ImageCacheMap.getByKey in Hitem.
  destruct (SheetCellCacheManagerService.getMap unitId subUnitId s) as [map|] eqn:Hmap;
    [|done].
  simpl in Hitem.
  pose proof (keys_agree_drive SetRangeValuesMutation_id calls unitId subUnitId map Hmap)
    as Hkeys.
  pose proof (placed_drive SetRangeValuesMutation_id calls unitId subUnitId map Hmap)
    as Hplaced.
  unfold SheetCellCacheManagerService.watchCallback. fold s. rewrite Hmap.
  erewrite getImageCache_getMap; [|by rewrite getMap_putMap, decide_True].
  simpl.
  apply (getByPosition_placed
           (ImageCacheMap.update key (startRow after) (startColumn after) map) key
           (IImageCache.move item (startRow after) (startColumn after))).
  - by apply keys_agree_update.
  - by apply placed_update.
  - by apply update_getByKey.
  - done.
  - done.
Qed.

Lemma moved_entry_found_at_new_position_witness :
  let calls :=
    [CallInitSubSheet
       (Some (mkSheetContents
          [(2, 3, Some (mkCellData (Some (mkDocumentData
              (Some {["img1" := mkImageData "https://example.com/a.png" URL]})
              (Some ["img1"])))))]
          (λ _ _, None)))
       "unit" "sheet"] in
  SheetCellCacheManagerService.getImageCache "unit" "sheet" 5 3
    (SheetCellCacheManagerService.watchCallback "unit" "sheet" "img1"
       (Some (mkRange 5 5 3 3)) (drive "sheet.mutation.set-range-values" calls))
    ≫= (λ record, record !! "img1")
  = Some (IImageCache.mk 0 0 5 3 "img1" loading).
Proof.
  intros calls.
  apply (moved_entry_found_at_new_position "sheet.mutation.set-range-values" calls
           "unit" "sheet" "img1" (IImageCache.mk 0 0 2 3 "img1" loading)
           (mkRange 5 5 3 3)).
  - vm_compute. reflexivity.
  - simpl. lia.
  - simpl. lia.
Defined.
